(** * Cloth simulation of the fabric component (src/sails.ts)

    A shallow embedding of [FabricSimulationComponent], [Particle] and
    [Constraint], together with the handful of [THREE.Vector3] methods they
    call.  The program computes on JavaScript numbers; the embedding is
    written once over an interface [Number] of the operations the source
    uses and is read at two instances:

    - [float]: Rocq's primitive binary64 floats, i.e. the IEEE 754 doubles
      JavaScript computes with (NaN, infinities and rounding included).
      Whatever a property says about NaN or the infinities is settled
      here, and so is every concrete run;
    - [R]: exact real arithmetic, an idealisation without rounding,
      overflow, NaN or signed zero.  What is proved there is a fact about
      the formulas of the source, not about the doubles it computes with,
      and is marked as such.

    Properties that do not depend on the arithmetic are proved for every
    instance, doubles included.

    Particles are objects shared by reference between the particle array and
    the constraints; the embedding keeps one store (the particle list) and
    lets constraints name their endpoints by index into it.  Rendering (the
    mesh, the copy of positions into its geometry) and the tweening of the
    wind force by the animation library are outside the component's
    physical state: the wind force is an input of each step. *)

From Stdlib Require Import ZArith Reals Lra Lia.
From Stdlib Require Floats Uint63.
From Stdlib Require Import PrimFloat.
From stdpp Require Import base list.

Set Default Proof Using "Type".

(** ** JavaScript numbers *)

Class Number (num : Type) := {
  ofZ : Z -> num;                 (* an integer literal or loop counter *)
  nadd : num -> num -> num;       (* a + b *)
  nsub : num -> num -> num;       (* a - b *)
  nmul : num -> num -> num;       (* a * b *)
  ndiv : num -> num -> num;       (* a / b *)
  nneg : num -> num;              (* -a *)
  nsqrt : num -> num;             (* Math.sqrt *)
  nabs : num -> num;              (* Math.abs *)
  nmax : num -> num -> num;       (* Math.max *)
  nmin : num -> num -> num;       (* Math.min *)
  isNaN : num -> bool;            (* isNaN *)
  ngt : num -> num -> bool;       (* a > b *)
  nle : num -> num -> bool;       (* a <= b *)
  strictEq : num -> num -> bool;  (* a === b *)
}.

Declare Scope js_scope.
Delimit Scope js_scope with js.
Infix "+" := nadd : js_scope.
Infix "-" := nsub : js_scope.
Infix "*" := nmul : js_scope.
Infix "/" := ndiv : js_scope.
Notation "- a" := (nneg a) : js_scope.
Infix ">?" := ngt (at level 70, no associativity) : js_scope.
Infix "<=?" := nle (at level 70, no associativity) : js_scope.
Infix "===" := strictEq (at level 70, no associativity) : js_scope.

(** The decimal literal [m * 10^-k].  Both integers are exactly
    representable, so the (correctly rounded) quotient is the double nearest
    to the decimal, which is what the JavaScript parser produces; over the
    reals it is the decimal itself. *)
Definition dec {num} `{!Number num} (m : Z) (k : nat) : num :=
  (ofZ m / ofZ (10 ^ Z.of_nat k))%js.

(** [a || b] on numbers: [0], [-0] and [NaN] are falsy. *)
Definition orElse {num} `{!Number num} (a b : num) : num :=
  if (a === ofZ 0)%js || isNaN a then b else a.

(** *** IEEE 754 binary64 *)

Module F64.

Definition ofZ (z : Z) : float :=
  if (z <? 0)%Z then PrimFloat.opp (PrimFloat.of_uint63 (Uint63.of_Z (- z)))
  else PrimFloat.of_uint63 (Uint63.of_Z z).

(** [Math.max] and [Math.min]: NaN if either argument is NaN, and
    [-0] counts as smaller than [+0]. *)
Definition max (a b : float) : float :=
  if PrimFloat.is_nan a || PrimFloat.is_nan b then PrimFloat.nan
  else if PrimFloat.ltb a b then b
  else if PrimFloat.ltb b a then a
  else if PrimFloat.get_sign a then b else a.

Definition min (a b : float) : float :=
  if PrimFloat.is_nan a || PrimFloat.is_nan b then PrimFloat.nan
  else if PrimFloat.ltb a b then a
  else if PrimFloat.ltb b a then b
  else if PrimFloat.get_sign a then a else b.

End F64.

#[export] Instance float_Number : Number float := {|
  ofZ := F64.ofZ;
  nadd := PrimFloat.add;
  nsub := PrimFloat.sub;
  nmul := PrimFloat.mul;
  ndiv := PrimFloat.div;
  nneg := PrimFloat.opp;
  nsqrt := PrimFloat.sqrt;
  nabs := PrimFloat.abs;
  nmax := F64.max;
  nmin := F64.min;
  isNaN := PrimFloat.is_nan;
  ngt := fun a b => PrimFloat.ltb b a;
  nle := PrimFloat.leb;
  strictEq := PrimFloat.eqb;
|}.

(** *** Exact reals

    Not what the program computes with: no rounding, no overflow, no NaN,
    no infinities, no signed zero. *)

#[export] Instance real_Number : Number R := {|
  ofZ := IZR;
  nadd := Rplus;
  nsub := Rminus;
  nmul := Rmult;
  ndiv := Rdiv;
  nneg := Ropp;
  nsqrt := R_sqrt.sqrt;
  nabs := Rabs;
  nmax := Rmax;
  nmin := Rmin;
  isNaN := fun _ => false;
  ngt := fun a b => if Rgt_dec a b then true else false;
  nle := fun a b => if Rle_dec a b then true else false;
  strictEq := fun a b => if Req_dec_T a b then true else false;
|}.

(** ** THREE.Vector3 *)

Module Vector3.
Section Vector3.
Context {num : Type}.

Record t := new { x : num; y : num; z : num }.

Context `{!Number num}.
Local Open Scope js_scope.

Definition subVectors (a b : t) : t :=
  new (x a - x b) (y a - y b) (z a - z b).

Definition addVectors (a b : t) : t :=
  new (x a + x b) (y a + y b) (z a + z b).

Definition add (a v : t) : t := addVectors a v.

Definition sub (a v : t) : t := subVectors a v.

Definition multiplyScalar (a : t) (s : num) : t :=
  new (x a * s) (y a * s) (z a * s).

Definition divideScalar (a : t) (s : num) : t :=
  multiplyScalar a (ofZ 1 / s).

Definition length (a : t) : num :=
  nsqrt (x a * x a + y a * y a + z a * z a).

Definition normalize (a : t) : t :=
  divideScalar a (orElse (length a) (ofZ 1)).

Definition zero : t := new (ofZ 0) (ofZ 0) (ofZ 0).

(** The three coordinates, for statements that range over them. *)
Definition coords (a : t) : list num := [x a; y a; z a].

End Vector3.
Arguments t : clear implicits.
End Vector3.

Abbreviation Vector3 := Vector3.t.

(** ** Particle and Constraint *)

Section Physics.
Context {num : Type} `{!Number num}.
Local Open Scope js_scope.

Record Particle := {
  position : Vector3 num;
  mass : num;
  oldPosition : Vector3 num;
  acceleration : Vector3 num;
  pinned : bool;
}.

(** [new Particle(position, mass)] *)
Definition newParticle (pos : Vector3 num) (m : num) : Particle :=
  {| position := pos; mass := m; oldPosition := pos;
     acceleration := Vector3.zero; pinned := false |}.

Definition setPosition (v : Vector3 num) (p : Particle) : Particle :=
  {| position := v; mass := mass p; oldPosition := oldPosition p;
     acceleration := acceleration p; pinned := pinned p |}.

Definition setAcceleration (v : Vector3 num) (p : Particle) : Particle :=
  {| position := position p; mass := mass p; oldPosition := oldPosition p;
     acceleration := v; pinned := pinned p |}.

Definition setPinned (b : bool) (p : Particle) : Particle :=
  {| position := position p; mass := mass p; oldPosition := oldPosition p;
     acceleration := acceleration p; pinned := b |}.

(** [Particle.addForce] *)
Definition addForce (force : Vector3 num) (p : Particle) : Particle :=
  let acc := Vector3.divideScalar force (mass p) in
  if negb (isNaN (Vector3.x acc)) && negb (isNaN (Vector3.y acc))
     && negb (isNaN (Vector3.z acc))
  then setAcceleration (Vector3.add (acceleration p) acc) p
  else p.

(** A constraint holds its two particles by reference: [p1] and [p2] are
    their indices in the component's particle array. *)
Record Constraint := {
  p1 : nat;
  p2 : nat;
  distance : num;
}.

(** [q.position.<op>(...)] guarded by [if (!q.pinned)], for the particle
    object at index [i] of the store. *)
Definition moveUnlessPinned (i : nat) (f : Vector3 num -> Vector3 num)
    (ps : list Particle) : list Particle :=
  match ps !! i with
  | Some q =>
      if pinned q then ps else <[i := setPosition (f (position q)) q]> ps
  | None => ps
  end.

(** [Constraint.satisfy] *)
Definition satisfy (c : Constraint) (ps : list Particle) : list Particle :=
  match ps !! p1 c, ps !! p2 c with
  | Some a, Some b =>
      let p1p2 := Vector3.subVectors (position b) (position a) in
      let currentDist := Vector3.length p1p2 in
      if (currentDist === ofZ 0) || isNaN currentDist then ps
      else
        let correction :=
          Vector3.multiplyScalar p1p2 (ofZ 1 - distance c / currentDist) in
        let correctionHalf := Vector3.multiplyScalar correction (dec 5 1) in
        let ps' :=
          moveUnlessPinned (p1 c) (fun v => Vector3.add v correctionHalf) ps in
        moveUnlessPinned (p2 c) (fun v => Vector3.sub v correctionHalf) ps'
  | _, _ => ps
  end.

(** ** FabricSimulationComponent *)

(** The cloth properties, fields of the component that are set once. *)
Record Config := {
  clothWidth : num;
  clothHeight : num;
  segmentsW : nat;
  segmentsH : nat;
}.

Definition defaultConfig : Config :=
  {| clothWidth := ofZ 60; clothHeight := ofZ 50;
     segmentsW := 40; segmentsH := 30 |}.

Definition DAMPING : num := dec 2 2.
Definition DRAG : num := ofZ 1 - DAMPING.
Definition MASS : num := dec 1 1.
Definition MAX_DISPLACEMENT : num := ofZ 5.
Definition maxScrollVelocity : num := ofZ 15.
Definition timeStep : num := ofZ 1 / ofZ 60.

Definition ofNat (n : nat) : num := ofZ (Z.of_nat n).

(** Set in the constructor. *)
Definition restDistance (cfg : Config) : num :=
  (clothWidth cfg / ofNat (segmentsW cfg)) * dec 9 1.

(** A tween started by [gsap.to(this.windForce, ...)]: the target of each
    component it animates and its duration.  The tweening itself belongs
    to the animation library; the component only starts tweens. *)
Record Tween := {
  toX : option num;
  toY : option num;
  toZ : option num;
  duration : num;
}.

(** What a pending [resetTimeout] will run, and after how many ms. *)
Inductive Timer :=
| afterScroll (ms : nat)        (* () => this.resetFabric() *)
| stabilityCheck (ms : nat).    (* the isClothStable() poll *)

Record Fabric := {
  initialPositions : list (Vector3 num);
  particles : list Particle;
  constraints : list Constraint;
  windForce : Vector3 num;
  previousScrollY : num;
  scrollVelocity : num;
  isSimulationActive : bool;
  animationFrameId : option nat;
  resetTimeout : option Timer;
  tweens : list Tween;          (* gsap.to calls, most recent first *)
}.

Definition index (cfg : Config) (u v : nat) : nat :=
  (u + v * (segmentsW cfg + 1))%nat.

Definition clothFunction (cfg : Config) (u v : num) : Vector3 num :=
  let x := (u - dec 5 1) * clothWidth cfg in
  let y := (v - dec 5 1) * clothHeight cfg in
  let z := ofZ 0 in
  Vector3.new x y z.

(** The position computed for grid point [(u, v)] in [createCloth]. *)
Definition gridPosition (cfg : Config) (u v : nat) : Vector3 num :=
  clothFunction cfg (ofNat u / ofNat (segmentsW cfg))
                    (ofNat v / ofNat (segmentsH cfg)).

Definition gridParticle (cfg : Config) (u v : nat) : Particle :=
  let particle := newParticle (gridPosition cfg u v) MASS in
  if (v =? 0)%nat then setPinned true particle else particle.

(** The two nested loops of [createCloth] that push particles. *)
Definition createParticles (cfg : Config) : list Particle :=
  v ← seq 0 (S (segmentsH cfg));
  u ← seq 0 (S (segmentsW cfg));
  [gridParticle cfg u v].

Definition createInitialPositions (cfg : Config) : list (Vector3 num) :=
  v ← seq 0 (S (segmentsH cfg));
  u ← seq 0 (S (segmentsW cfg));
  [gridPosition cfg u v].

Definition newConstraint (i j : nat) (d : num) : Constraint :=
  {| p1 := i; p2 := j; distance := d |}.

(** The three loops of [createCloth] that push constraints, in push
    order. *)
Definition createConstraints (cfg : Config) : list Constraint :=
  (v ← seq 0 (segmentsH cfg);
   u ← seq 0 (segmentsW cfg);
   [newConstraint (index cfg u v) (index cfg (u + 1) v) (restDistance cfg);
    newConstraint (index cfg u v) (index cfg u (v + 1)) (restDistance cfg)])
  ++ (u ← seq 0 (segmentsW cfg);
      [newConstraint (index cfg u (segmentsH cfg))
                     (index cfg (u + 1) (segmentsH cfg)) (restDistance cfg)])
  ++ (v ← seq 0 (segmentsH cfg);
      [newConstraint (index cfg (segmentsW cfg) v)
                     (index cfg (segmentsW cfg) (v + 1)) (restDistance cfg)]).

(** [createCloth]: the mesh it builds is the renderer's business. *)
Definition createCloth (cfg : Config) (st : Fabric) : Fabric :=
  {| initialPositions := createInitialPositions cfg;
     particles := createParticles cfg;
     constraints := createConstraints cfg;
     windForce := windForce st;
     previousScrollY := previousScrollY st;
     scrollVelocity := scrollVelocity st;
     isSimulationActive := isSimulationActive st;
     animationFrameId := animationFrameId st;
     resetTimeout := resetTimeout st;
     tweens := tweens st |}.

(** The component after its constructor and [ngOnInit]. *)
Definition init (cfg : Config) : Fabric :=
  createCloth cfg
    {| initialPositions := []; particles := []; constraints := [];
       windForce := Vector3.zero;
       previousScrollY := ofZ 0; scrollVelocity := ofZ 0;
       isSimulationActive := false; animationFrameId := None;
       resetTimeout := None; tweens := [] |}.

(** *** The physics step *)

Definition gravity : Vector3 num := Vector3.new (ofZ 0) (- dec 2 1) (ofZ 0).

(** [windEffect] of [simulate], for the current wind force. *)
Definition windEffect (windForce : Vector3 num) : Vector3 num :=
  Vector3.new (ofZ 0) (ofZ 0) (Vector3.y windForce).

(** [flatteningForce] of [simulate]. *)
Definition flatteningForce (particle : Particle) : Vector3 num :=
  Vector3.new (ofZ 0) (ofZ 0) (- Vector3.z (position particle) * dec 2 2).

(** The three [addForce] calls of [simulate] on an unpinned particle. *)
Definition applyForces (wind : Vector3 num) (particle : Particle) : Particle :=
  let particle := addForce gravity particle in
  let particle := addForce (windEffect wind) particle in
  addForce (flatteningForce particle) particle.

(** [newPos] of [simulate], before the displacement limit. *)
Definition verlet (particle : Particle) : Vector3 num :=
  Vector3.add
    (Vector3.addVectors (position particle)
       (Vector3.multiplyScalar
          (Vector3.sub (position particle) (oldPosition particle)) DRAG))
    (Vector3.multiplyScalar (acceleration particle) (timeStep * timeStep)).

(** [newPos] after the displacement limit. *)
Definition limitDisplacement (particle : Particle) (newPos : Vector3 num)
    : Vector3 num :=
  let displacement := Vector3.subVectors newPos (position particle) in
  if Vector3.length displacement >? MAX_DISPLACEMENT then
    let displacement :=
      Vector3.multiplyScalar (Vector3.normalize displacement)
        MAX_DISPLACEMENT in
    Vector3.add (position particle) displacement
  else newPos.

(** Integration and commit for one unpinned particle. *)
Definition integrate (particle : Particle) : Particle :=
  let newPos := limitDisplacement particle (verlet particle) in
  {| position := newPos; mass := mass particle;
     oldPosition := position particle;
     acceleration := Vector3.new (ofZ 0) (ofZ 0) (ofZ 0);
     pinned := pinned particle |}.

(** The body of the first loop of [simulate]. *)
Definition stepParticle (wind : Vector3 num) (particle : Particle) : Particle :=
  if pinned particle then particle
  else integrate (applyForces wind particle).

(** One pass over all constraints, in array order, each seeing the
    positions the previous ones left. *)
Definition relaxOnce (cs : list Constraint) (ps : list Particle)
    : list Particle :=
  foldl (fun ps c => satisfy c ps) ps cs.

Definition numIterations : nat := 5.

Definition relax (cs : list Constraint) (ps : list Particle) : list Particle :=
  Nat.iter numIterations (relaxOnce cs) ps.

Definition explodedParticle (particle : Particle) : bool :=
  isNaN (Vector3.x (position particle))
  || isNaN (Vector3.y (position particle))
  || isNaN (Vector3.z (position particle))
  || (nabs (Vector3.x (position particle)) >? ofZ 1000)
  || (nabs (Vector3.y (position particle)) >? ofZ 1000)
  || (nabs (Vector3.z (position particle)) >? ofZ 1000).

Definition checkSimulationExploded (ps : list Particle) : bool :=
  existsb explodedParticle ps.

Definition setWindForce (w : Vector3 num) (st : Fabric) : Fabric :=
  {| initialPositions := initialPositions st;
     particles := particles st;
     constraints := constraints st;
     windForce := w;
     previousScrollY := previousScrollY st;
     scrollVelocity := scrollVelocity st;
     isSimulationActive := isSimulationActive st;
     animationFrameId := animationFrameId st;
     resetTimeout := resetTimeout st;
     tweens := tweens st |}.

Definition setParticles (ps : list Particle) (st : Fabric) : Fabric :=
  {| initialPositions := initialPositions st;
     particles := ps;
     constraints := constraints st;
     windForce := windForce st;
     previousScrollY := previousScrollY st;
     scrollVelocity := scrollVelocity st;
     isSimulationActive := isSimulationActive st;
     animationFrameId := animationFrameId st;
     resetTimeout := resetTimeout st;
     tweens := tweens st |}.

Definition setActive (b : bool) (st : Fabric) : Fabric :=
  {| initialPositions := initialPositions st;
     particles := particles st;
     constraints := constraints st;
     windForce := windForce st;
     previousScrollY := previousScrollY st;
     scrollVelocity := scrollVelocity st;
     isSimulationActive := b;
     animationFrameId := animationFrameId st;
     resetTimeout := resetTimeout st;
     tweens := tweens st |}.

Definition fullReset (cfg : Config) (st : Fabric) : Fabric :=
  let st := createCloth cfg st in
  let st := setWindForce (Vector3.new (ofZ 0) (ofZ 0) (ofZ 0)) st in
  setActive false st.

(** The particle store after the force/integration loop and the
    relaxation passes of [simulate]. *)
Definition physics (st : Fabric) : list Particle :=
  relax (constraints st) (stepParticle (windForce st) <$> particles st).

(** [simulate]: the copy of the positions into the mesh geometry
    ([updateClothGeometry]) is the renderer's side and leaves the
    component's physical state as it is. *)
Definition simulate (cfg : Config) (st : Fabric) : Fabric :=
  let st := setParticles (physics st) st in
  if checkSimulationExploded (particles st) then fullReset cfg st
  else st.

(** *** Stability test *)

Definition velocityThreshold : num := dec 1 2.
Definition zMovementThreshold : num := dec 5 2.

(** [velocity] and [zVelocity] of [isClothStable]. *)
Definition velocity (particle : Particle) : num :=
  Vector3.length
    (Vector3.subVectors (position particle) (oldPosition particle)).

Definition zVelocity (particle : Particle) : num :=
  nabs (Vector3.z (position particle) - Vector3.z (oldPosition particle)).

(** The test [isClothStable] makes on one unpinned particle: [true] when
    the particle is still moving too much. *)
Definition stillMoving (particle : Particle) : bool :=
  (velocity particle >? velocityThreshold)
  || (zVelocity particle >? zMovementThreshold).

(** The loop of [isClothStable], with its [break]. *)
Fixpoint isClothStableFrom (ps : list Particle) : bool :=
  match ps with
  | [] => true
  | particle :: rest =>
      if negb (pinned particle) then
        if stillMoving particle then false
        else isClothStableFrom rest
      else isClothStableFrom rest
  end.

Definition isClothStable (st : Fabric) : bool :=
  isClothStableFrom (particles st).

(** *** Scroll handling and the animation loop *)

Definition setScroll (prev vel : num) (st : Fabric) : Fabric :=
  {| initialPositions := initialPositions st;
     particles := particles st;
     constraints := constraints st;
     windForce := windForce st;
     previousScrollY := prev;
     scrollVelocity := vel;
     isSimulationActive := isSimulationActive st;
     animationFrameId := animationFrameId st;
     resetTimeout := resetTimeout st;
     tweens := tweens st |}.

Definition setAnimationFrameId (id : option nat) (st : Fabric) : Fabric :=
  {| initialPositions := initialPositions st;
     particles := particles st;
     constraints := constraints st;
     windForce := windForce st;
     previousScrollY := previousScrollY st;
     scrollVelocity := scrollVelocity st;
     isSimulationActive := isSimulationActive st;
     animationFrameId := id;
     resetTimeout := resetTimeout st;
     tweens := tweens st |}.

Definition setResetTimeout (t : option Timer) (st : Fabric) : Fabric :=
  {| initialPositions := initialPositions st;
     particles := particles st;
     constraints := constraints st;
     windForce := windForce st;
     previousScrollY := previousScrollY st;
     scrollVelocity := scrollVelocity st;
     isSimulationActive := isSimulationActive st;
     animationFrameId := animationFrameId st;
     resetTimeout := t;
     tweens := tweens st |}.

(** [gsap.to(this.windForce, tw)] *)
Definition startTween (tw : Tween) (st : Fabric) : Fabric :=
  {| initialPositions := initialPositions st;
     particles := particles st;
     constraints := constraints st;
     windForce := windForce st;
     previousScrollY := previousScrollY st;
     scrollVelocity := scrollVelocity st;
     isSimulationActive := isSimulationActive st;
     animationFrameId := animationFrameId st;
     resetTimeout := resetTimeout st;
     tweens := tw :: tweens st |}.

(** [animate]; [frame] is the id [requestAnimationFrame] hands back. *)
Definition animate (cfg : Config) (frame : nat) (st : Fabric) : Fabric :=
  if negb (isSimulationActive st) then st
  else setAnimationFrameId (Some frame) (simulate cfg st).

(** [handleScroll], for the value [currentScrollY] of [window.scrollY]. *)
Definition handleScroll (cfg : Config) (currentScrollY : num) (frame : nat)
    (st : Fabric) : Fabric :=
  let st := setScroll (previousScrollY st)
              (currentScrollY - previousScrollY st) st in
  let st := setScroll (previousScrollY st)
              (nmax (- maxScrollVelocity)
                    (nmin maxScrollVelocity (scrollVelocity st))) st in
  let st :=
    if nabs (scrollVelocity st) >? ofZ 1 then
      let scaledVelocity := scrollVelocity st * dec 15 2 in
      let st :=
        startTween {| toX := None; toY := Some scaledVelocity; toZ := None;
                      duration := dec 2 1 |} st in
      if negb (isSimulationActive st)
      then animate cfg frame (setActive true st)
      else st
    else st in
  let st := setScroll currentScrollY (scrollVelocity st) st in
  setResetTimeout (Some (afterScroll 500)) st.

(** [resetFabric], up to the point where it arms the stability poll. *)
Definition resetFabric (st : Fabric) : Fabric :=
  let st :=
    startTween {| toX := Some (ofZ 0); toY := Some (ofZ 0);
                  toZ := Some (ofZ 0); duration := dec 12 1 |} st in
  setResetTimeout (Some (stabilityCheck 1500)) st.

(** The callback of the stability poll armed by [resetFabric]. The pending
    frame is cancelled and forgotten [if (this.animationFrameId)]: an id of
    0 is falsy and stays. *)
Definition stabilityPoll (st : Fabric) : Fabric :=
  if isClothStable st then
    let st := setActive false st in
    match animationFrameId st with
    | Some (S _) => setAnimationFrameId None st
    | _ => st
    end
  else setResetTimeout (Some (afterScroll 500)) st.

End Physics.

Arguments Particle : clear implicits.
Arguments Constraint : clear implicits.
Arguments Config : clear implicits.
Arguments Tween : clear implicits.
Arguments Fabric : clear implicits.


(** * Vocabulary of the properties *)

Section Vocabulary.
Context {num : Type} `{!Number num}.
Local Open Scope js_scope.
Implicit Types (cfg : Config num) (e : nat * nat).

(** [ps'] has the pins of [ps], and no pinned particle of [ps] has moved. *)
Definition pinsKept (ps ps' : list (Particle num)) : Prop :=
  Forall2 (fun p q => pinned q = pinned p
                      /\ (pinned p = true -> position q = position p))
          ps ps'.

(** What [createCloth] establishes and every step keeps: the particle
    array has the pins of the grid, and its pinned particles sit at their
    grid positions. *)
Definition pinnedAtRest (cfg : Config num) (st : Fabric num) : Prop :=
  pinsKept (createParticles cfg) (particles st).

(** [simulate] called once per element of [winds], the wind force having
    been set to that element (by the tweens) before the call. *)
Definition run (cfg : Config num) (winds : list (Vector3 num))
    (st : Fabric num) : Fabric num :=
  foldl (fun st w => simulate cfg (setWindForce w st)) st winds.

(** A coordinate that the test of [checkSimulationExploded] rejects. *)
Definition outOfRange (c : num) : bool :=
  isNaN c || (nabs c >? ofZ 1000)%js.

(** Some component of the vector is NaN. *)
Definition hasNaN (v : Vector3 num) : bool :=
  isNaN (Vector3.x v) || isNaN (Vector3.y v) || isNaN (Vector3.z v).

(** The [correctionHalf] of [satisfy] for endpoints at [pa] and [pb]. *)
Definition correctionHalf (c : Constraint num) (pa pb : Vector3 num)
    : Vector3 num :=
  let p1p2 := Vector3.subVectors pb pa in
  let currentDist := Vector3.length p1p2 in
  let correction :=
    Vector3.multiplyScalar p1p2 (ofZ 1 - distance c / currentDist) in
  Vector3.multiplyScalar correction (dec 5 1).

(** [p1.position + p2.position] for the particles at indices [i] and
    [j] of the store. *)
Definition positionSum (i j : nat) (ps : list (Particle num))
    : option (Vector3 num) :=
  match ps !! i, ps !! j with
  | Some a, Some b => Some (Vector3.addVectors (position a) (position b))
  | _, _ => None
  end.

(** The clamp [handleScroll] applies to the scroll delta. *)
Definition clampScroll (delta : num) : num :=
  nmax (- maxScrollVelocity) (nmin maxScrollVelocity delta).


(** The two particles a constraint links, as indices. *)
Definition ends (c : Constraint num) : nat * nat := (p1 c, p2 c).

(** The pairs [createCloth] links: a grid point with its right neighbour,
    and with the one below it. *)
Definition hPair cfg (u v : nat) : nat * nat :=
  (index cfg u v, index cfg (u + 1) v).

Definition vPair cfg (u v : nat) : nat * nat :=
  (index cfg u v, index cfg u (v + 1)).

(** The pairs pushed by each of the three loops of [createCloth]. *)
Definition cellPairs cfg : list (nat * nat) :=
  v ← seq 0 (segmentsH cfg);
  u ← seq 0 (segmentsW cfg);
  [hPair cfg u v; vPair cfg u v].

Definition bottomPairs cfg : list (nat * nat) :=
  u ← seq 0 (segmentsW cfg); [hPair cfg u (segmentsH cfg)].

Definition rightPairs cfg : list (nat * nat) :=
  v ← seq 0 (segmentsH cfg); [vPair cfg (segmentsW cfg) v].

(** The pair links a grid point with its right neighbour. *)
Definition horizontalPair cfg e : Prop :=
  exists u v, u < segmentsW cfg /\ v <= segmentsH cfg /\ e = hPair cfg u v.

(** The pair links a grid point with the one below it. *)
Definition verticalPair cfg e : Prop :=
  exists u v, u <= segmentsW cfg /\ v < segmentsH cfg /\ e = vPair cfg u v.

(** The order the specification words: all horizontal pairs row by row,
    then all vertical pairs. *)
Definition pairsAsSpecified cfg : list (nat * nat) :=
  (v ← seq 0 (S (segmentsH cfg)); u ← seq 0 (segmentsW cfg);
   [hPair cfg u v])
  ++ (v ← seq 0 (segmentsH cfg); u ← seq 0 (S (segmentsW cfg));
      [vPair cfg u v]).

(** A free particle at the origin and one two units to its right. *)
Definition twoApart : list (Particle num) :=
  [newParticle (Vector3.new (ofZ 0) (ofZ 0) (ofZ 0)) MASS;
   newParticle (Vector3.new (ofZ 2) (ofZ 0) (ofZ 0)) MASS].

(** The wind force a scroll delta of 20 tweens to. *)
Definition fullWind : Vector3 num :=
  Vector3.new (ofZ 0) (dec 225 2) (ofZ 0).

End Vocabulary.

(** What the stability test needs of the order: on numbers (not NaN),
    [a > b] fails exactly when [a <= b] holds; and the two thresholds are
    numbers. *)
Class OrderLaws (num : Type) `{!Number num} : Prop := {
  ngt_nle : forall a b : num,
    isNaN a = false -> isNaN b = false -> (a >? b)%js = negb (a <=? b)%js;
  velocityThreshold_number : isNaN (velocityThreshold : num) = false;
  zMovementThreshold_number : isNaN (zMovementThreshold : num) = false;
}.

(** ** Concrete inputs on doubles *)

(** The 4 x 3 banner: 20 particles, 31 constraints. *)
Definition bannerCfg : Config float :=
  {| clothWidth := ofZ 60; clothHeight := ofZ 50;
     segmentsW := 4; segmentsH := 3 |}.

(** The banner at rest with the first coordinate of particle 7 overwritten. *)
Definition bannerWithX (c : float) : Fabric float :=
  let st := init bannerCfg in
  setParticles
    (alter (fun p => setPosition
                       (Vector3.new c (Vector3.y (position p))
                                      (Vector3.z (position p))) p)
           7 (particles st))
    st.

(** A free particle at rest at the origin, and a wind force strong enough
    to carry it some 50 units in one step. *)
Definition atOrigin : Particle float :=
  newParticle (Vector3.new 0 0 0)%float MASS.

Definition gale : Vector3 float := (Vector3.new 0 18004 0)%float.


(** Two free particles on a diagonal, at (0, 0, 0) and (2, 2, 0). *)
Definition diagonalPair : list (Particle float) :=
  [newParticle (Vector3.new 0 0 0)%float MASS;
   newParticle (Vector3.new 2 2 0)%float MASS].

(** Two free particles 2^600 apart: their distance overflows to infinity. *)
Definition farApart : list (Particle float) :=
  [newParticle (Vector3.new 0 0 0)%float MASS;
   newParticle (Vector3.new 0x1p600 0 0)%float MASS].

(** A free particle at the origin and one with an infinite coordinate. *)
Definition infinitelyFar : list (Particle float) :=
  [newParticle (Vector3.new 0 0 0)%float MASS;
   newParticle (Vector3.new PrimFloat.infinity 0 0)%float MASS].

(** * The rest of the component: definitions *)

Section Rest.
Context {num : Type} `{!Number num}.
Local Open Scope js_scope.
Implicit Types (cfg : Config num) (st : Fabric num) (p q : Particle num).

(** The loop of [updateClothGeometry] from particle index [i] on, writing
    into the [Float32Array] [positions] of the mesh geometry. [toFloat32]
    is the conversion to single precision a [Float32Array] applies to every
    number stored in it; a store past the end of a typed array does
    nothing. *)
Fixpoint updateClothGeometryFrom (toFloat32 : num -> num) (i : nat)
    (ps : list (Particle num)) (positions : list num) : list num :=
  match ps with
  | [] => positions
  | p :: rest =>
      let idx := (i * 3)%nat in
      let positions :=
        <[idx := toFloat32 (Vector3.x (position p))]> positions in
      let positions :=
        <[(idx + 1)%nat := toFloat32 (Vector3.y (position p))]> positions in
      let positions :=
        <[(idx + 2)%nat := toFloat32 (Vector3.z (position p))]> positions in
      updateClothGeometryFrom toFloat32 (S i) rest positions
  end.

(** [updateClothGeometry], on the position attribute of the geometry. *)
Definition updateClothGeometry (toFloat32 : num -> num)
    (ps : list (Particle num)) (positions : list num) : list num :=
  updateClothGeometryFrom toFloat32 0 ps positions.

(** What happens to the component: the callbacks the browser runs on it
    (the scroll listener, an animation frame, the two kinds of
    [resetTimeout]) and the writes of the animation library's tweens to its
    wind force. *)
Inductive Event :=
| scrolled (currentScrollY : num) (frame : nat)   (* handleScroll *)
| frameDue (frame : nat)                          (* animate *)
| scrollStopped                                   (* resetFabric *)
| stabilityDue                                    (* the stability poll *)
| tweened (w : Vector3 num).         (* a running tween writes windForce *)

Definition handle cfg (e : Event) st : Fabric num :=
  match e with
  | scrolled currentScrollY frame => handleScroll cfg currentScrollY frame st
  | frameDue frame => animate cfg frame st
  | scrollStopped => resetFabric st
  | stabilityDue => stabilityPoll st
  | tweened w => setWindForce w st
  end.

(** The three numbers [updateClothGeometry] stores for a particle. *)
Definition vertex (toFloat32 : num -> num) p : list num :=
  [toFloat32 (Vector3.x (position p)); toFloat32 (Vector3.y (position p));
   toFloat32 (Vector3.z (position p))].

(** The cloth a component holds between callbacks: the particle array has
    the size and the pins of the grid, pinned particles sit on their grid
    positions, every particle has the mass [MASS] and no acceleration
    pending, and the constraints and initial positions are those of the
    grid. *)
Definition wellFormed cfg st : Prop :=
  pinnedAtRest cfg st
  /\ Forall (fun p => acceleration p = Vector3.zero /\ mass p = MASS)
            (particles st)
  /\ constraints st = createConstraints cfg
  /\ initialPositions st = createInitialPositions cfg.

(** How one step without explosion relates a particle [p] before it to
    the same particle [q] after it. *)
Definition stepped p q : Prop :=
  mass q = mass p
  /\ pinned q = pinned p
  /\ if pinned p then q = p
     else oldPosition q = position p
          /\ acceleration q = Vector3.new (ofZ 0) (ofZ 0) (ofZ 0).

(** [q] is [p] with, at most, another position; the very same if [p] is
    pinned. *)
Definition moved p q : Prop :=
  q = setPosition (position q) p /\ (pinned p = true -> q = p).

End Rest.

Arguments Event : clear implicits.

(** * Properties *)

(** Turns the decimal literals of a goal over the reals into quotients of
    integer constants. *)
Ltac decimals :=
  unfold dec in *; simpl in *;
  repeat match goal with
         | |- context [IZR (?a ^ ?b)] =>
             let v := eval vm_compute in (a ^ b)%Z in
             change (a ^ b)%Z with v
         | H : context [IZR (?a ^ ?b)] |- _ =>
             let v := eval vm_compute in (a ^ b)%Z in
             change (a ^ b)%Z with v in H
         end.

(** ** Pinned particles *)

Section Pinned.
Context {num : Type} `{!Number num}.
Implicit Types (ps : list (Particle num)) (p q : Particle num).
Implicit Types (c : Constraint num) (cs : list (Constraint num)).
Implicit Types (cfg : Config num) (st : Fabric num).
Implicit Types (wind w : Vector3 num) (winds : list (Vector3 num)).

Lemma pinsKept_refl ps : pinsKept ps ps.
Proof. apply Forall_Forall2_diag, Forall_forall. by intros. Qed.

Lemma pinsKept_trans ps1 ps2 ps3 :
  pinsKept ps1 ps2 -> pinsKept ps2 ps3 -> pinsKept ps1 ps3.
Proof.
  unfold pinsKept. intros H12 H23.
  eapply Forall2_trans; [| exact H12 | exact H23].
  intros p q r [Hq Hpq] [Hr Hqr]. split; [congruence|].
  intros Hp. rewrite Hqr by congruence. auto.
Qed.

Lemma pinsKept_lookup ps ps' i p :
  pinsKept ps ps' -> ps !! i = Some p -> pinned p = true ->
  exists q, ps' !! i = Some q /\ pinned q = true /\ position q = position p.
Proof.
  intros Hk Hi Hp.
  destruct (Forall2_lookup_l _ _ _ _ _ Hk Hi) as (q & Hq & Hpin & Hpos).
  exists q. split; [done|]. split; [congruence | auto].
Qed.

Lemma moveUnlessPinned_pinsKept i f ps :
  pinsKept ps (moveUnlessPinned i f ps).
Proof.
  unfold moveUnlessPinned.
  destruct (ps !! i) as [q|] eqn:Hi; [|apply pinsKept_refl].
  destruct (pinned q) eqn:Hq; [apply pinsKept_refl|].
  rewrite <- (list_insert_id ps i q Hi) at 1.
  apply Forall2_insert; [apply pinsKept_refl|].
  simpl. split; [done|]. rewrite Hq. discriminate.
Qed.

Lemma satisfy_pinsKept c ps : pinsKept ps (satisfy c ps).
Proof.
  unfold satisfy.
  destruct (ps !! p1 c); [|apply pinsKept_refl].
  destruct (ps !! p2 c); [|apply pinsKept_refl].
  match goal with |- context [if ?b then _ else _] => destruct b end;
    [apply pinsKept_refl|].
  eapply pinsKept_trans; apply moveUnlessPinned_pinsKept.
Qed.

Lemma relaxOnce_pinsKept cs ps : pinsKept ps (relaxOnce cs ps).
Proof.
  unfold relaxOnce. revert ps.
  induction cs as [|c cs IH]; intros ps; simpl; [apply pinsKept_refl|].
  eapply pinsKept_trans; [apply satisfy_pinsKept | apply IH].
Qed.

Lemma relax_pinsKept cs ps : pinsKept ps (relax cs ps).
Proof.
  unfold relax. induction numIterations as [|n IH]; simpl;
    [apply pinsKept_refl|].
  eapply pinsKept_trans; [apply IH | apply relaxOnce_pinsKept].
Qed.

Lemma stepParticle_pinsKept wind ps :
  pinsKept ps (stepParticle wind <$> ps).
Proof.
  apply Forall2_fmap_r, Forall_Forall2_diag, Forall_forall.
  intros p _. unfold compose, stepParticle.
  destruct (pinned p) eqn:Hp; simpl; [done|].
  split; [|discriminate].
  unfold integrate, applyForces, addForce; simpl.
  repeat match goal with
         | |- context [if ?b then _ else _] => destruct b
         end; simpl; congruence.
Qed.

(** Force application, integration and relaxation leave every pinned
    particle where it is, in any state whatever. *)
Lemma physics_pinsKept st : pinsKept (particles st) (physics st).
Proof.
  unfold physics.
  eapply pinsKept_trans; [apply stepParticle_pinsKept | apply relax_pinsKept].
Qed.

Lemma init_pinnedAtRest cfg : pinnedAtRest cfg (init cfg).
Proof. apply pinsKept_refl. Qed.

Lemma setWindForce_pinnedAtRest cfg w st :
  pinnedAtRest cfg st -> pinnedAtRest cfg (setWindForce w st).
Proof. done. Qed.

Lemma simulate_pinnedAtRest cfg st :
  pinnedAtRest cfg st -> pinnedAtRest cfg (simulate cfg st).
Proof.
  unfold pinnedAtRest, simulate. intros Hst. simpl.
  destruct (checkSimulationExploded (physics st)); simpl.
  - apply pinsKept_refl.
  - eapply pinsKept_trans; [exact Hst | apply physics_pinsKept].
Qed.

Lemma animate_pinnedAtRest cfg frame st :
  pinnedAtRest cfg st -> pinnedAtRest cfg (animate cfg frame st).
Proof.
  unfold animate. intros Hst. destruct (negb _); [done|].
  by apply (simulate_pinnedAtRest cfg st).
Qed.

Lemma handleScroll_pinnedAtRest cfg cur frame st :
  pinnedAtRest cfg st -> pinnedAtRest cfg (handleScroll cfg cur frame st).
Proof.
  unfold handleScroll. intros Hst. cbv zeta.
  repeat match goal with
         | |- context [if ?b then _ else _] => destruct b
         end; try done.
  unfold pinnedAtRest. cbn [particles setScroll setResetTimeout].
  by apply animate_pinnedAtRest.
Qed.

Lemma simulate_pinsKept cfg st :
  pinnedAtRest cfg st -> pinsKept (particles st) (particles (simulate cfg st)).
Proof.
  unfold pinnedAtRest, simulate. intros Hst. simpl.
  destruct (checkSimulationExploded (physics st)); simpl;
    [|apply physics_pinsKept].
  (* a rebuilt pinned particle is the grid particle the old one sat on *)
  eapply Forall2_impl; [apply Forall2_flip, Hst|].
  intros p g [Hpin Hpos]. split; [done|].
  intros Hp. symmetry. apply Hpos. congruence.
Qed.

Lemma run_pinsKept cfg winds st :
  pinnedAtRest cfg st ->
  pinsKept (particles st) (particles (run cfg winds st)).
Proof.
  unfold run. revert st.
  induction winds as [|w winds IH]; intros st Hst; simpl;
    [apply pinsKept_refl|].
  eapply pinsKept_trans; [|apply IH].
  - apply (simulate_pinsKept cfg (setWindForce w st)), Hst.
  - apply simulate_pinnedAtRest, Hst.
Qed.

(** C1. A pinned particle of the cloth is at the same position after any
    number of [simulate] calls, whatever the wind force at each call and
    whatever the other particles' positions: the force loop, the Verlet
    integration and the relaxation passes skip it, and a rebuild after an
    explosion puts the pinned particle of that grid index back on the
    same grid position. *)
Theorem pinned_immobile cfg winds st i p :
  pinnedAtRest cfg st ->
  particles st !! i = Some p ->
  pinned p = true ->
  exists q, particles (run cfg winds st) !! i = Some q
            /\ pinned q = true /\ position q = position p.
Proof.
  intros Hst Hi Hp.
  exact (pinsKept_lookup _ _ _ _ (run_pinsKept cfg winds st Hst) Hi Hp).
Qed.

End Pinned.

(** ** The grid built by [createCloth] *)

Section Grid.
Context {A : Type}.

Lemma bind_singleton_fmap (g : nat -> A) (l : list nat) :
  (u ← l; [g u]) = g <$> l.
Proof.
  induction l as [|u l IH]; [done|]. by rewrite bind_cons, fmap_cons, IH.
Qed.

Lemma length_rows (row : nat -> list A) (W H : nat) :
  (forall v, length (row v) = W) ->
  length (seq 0 H ≫= row) = H * W.
Proof.
  intros Hrow. induction H as [|H IH]; [done|].
  rewrite seq_S, bind_app, length_app, IH. simpl.
  rewrite app_nil_r, Hrow. lia.
Qed.

Lemma lookup_rows (row : nat -> list A) (W H u v : nat) :
  (forall v, length (row v) = W) ->
  u < W -> v < H ->
  (seq 0 H ≫= row) !! (u + v * W) = row v !! u.
Proof.
  intros Hrow Hu. induction H as [|H IH]; [lia|]. intros Hv.
  rewrite seq_S, bind_app. simpl. rewrite app_nil_r.
  destruct (decide (v < H)) as [Hlt|Hge].
  - rewrite lookup_app_l; [by apply IH|].
    rewrite (length_rows row W) by done. nia.
  - assert (v = H) as -> by lia.
    rewrite lookup_app_r; rewrite (length_rows row W) by done; [|lia].
    f_equal. lia.
Qed.

(** The element pushed for [(u, v)] by two nested loops, [v] outermost,
    is at index [u + v * W]. *)
Lemma lookup_grid (f : nat -> nat -> A) (W H u v : nat) :
  u < W -> v < H ->
  (v ← seq 0 H; u ← seq 0 W; [f u v]) !! (u + v * W) = Some (f u v).
Proof.
  intros Hu Hv.
  rewrite (lookup_rows _ W) by
    (try done; intros; by rewrite bind_singleton_fmap, length_fmap, length_seq).
  rewrite bind_singleton_fmap, list_lookup_fmap, lookup_seq_lt by done.
  done.
Qed.

End Grid.

Section Rebuild.
Context {num : Type} `{!Number num}.

Lemma lookup_createParticles (cfg : Config num) u v :
  u <= segmentsW cfg -> v <= segmentsH cfg ->
  createParticles cfg !! index cfg u v = Some (gridParticle cfg u v).
Proof.
  intros Hu Hv. unfold createParticles, index.
  replace (segmentsW cfg + 1) with (S (segmentsW cfg)) by lia.
  apply (lookup_grid (gridParticle cfg)); lia.
Qed.

Lemma lookup_createInitialPositions (cfg : Config num) u v :
  u <= segmentsW cfg -> v <= segmentsH cfg ->
  createInitialPositions cfg !! index cfg u v = Some (gridPosition cfg u v).
Proof.
  intros Hu Hv. unfold createInitialPositions, index.
  replace (segmentsW cfg + 1) with (S (segmentsW cfg)) by lia.
  apply (lookup_grid (gridPosition cfg)); lia.
Qed.

Lemma position_gridParticle (cfg : Config num) u v :
  position (gridParticle cfg u v) = gridPosition cfg u v.
Proof. unfold gridParticle. by destruct (v =? 0). Qed.

Lemma checkSimulationExploded_intro (ps : list (Particle num)) i p :
  ps !! i = Some p -> explodedParticle p = true ->
  checkSimulationExploded ps = true.
Proof.
  intros Hi Hp. unfold checkSimulationExploded.
  apply existsb_exists. exists p. split; [|done].
  apply list_elem_of_In. by eapply list_elem_of_lookup_2.
Qed.

Lemma explodedParticle_coord (p : Particle num) c :
  c ∈ Vector3.coords (position p) -> outOfRange c = true ->
  explodedParticle p = true.
Proof.
  unfold Vector3.coords, outOfRange, explodedParticle.
  rewrite !elem_of_cons, elem_of_nil.
  intros [->|[->|[->|[]]]] [H|H]%orb_true_iff; rewrite H;
    by rewrite ?orb_true_r.
Qed.

(** When the explosion check fires, [simulate] ends in the state
    [fullReset] builds. *)
Lemma simulate_exploded (cfg : Config num) st :
  checkSimulationExploded (physics st) = true ->
  particles (simulate cfg st) = createParticles cfg
  /\ initialPositions (simulate cfg st) = createInitialPositions cfg
  /\ constraints (simulate cfg st) = createConstraints cfg
  /\ windForce (simulate cfg st) = Vector3.new (ofZ 0) (ofZ 0) (ofZ 0)
  /\ isSimulationActive (simulate cfg st) = false.
Proof. unfold simulate. simpl. by intros ->. Qed.

End Rebuild.

(** Every non-finite double fails the range test: NaN by [isNaN], the two
    infinities by their magnitude. *)
Lemma nonfinite_outOfRange (c : float) :
  PrimFloat.is_finite c = false -> outOfRange c = true.
Proof.
  unfold PrimFloat.is_finite, outOfRange. simpl.
  intros [Hnan|Hinf]%negb_false_iff%orb_true_iff; [by rewrite Hnan|].
  apply orb_true_iff. right.
  unfold PrimFloat.is_infinity in Hinf.
  rewrite FloatAxioms.eqb_spec in Hinf. rewrite FloatAxioms.ltb_spec.
  replace (FloatOps.Prim2SF PrimFloat.infinity)
    with (SpecFloat.S754_infinity false) in Hinf by (by vm_compute).
  destruct (FloatOps.Prim2SF (PrimFloat.abs c)) as [s| [|] | |s m e];
    try discriminate Hinf; try (by destruct s).
  by vm_compute.
Qed.

(** C2. If, after the relaxation passes, some particle has a coordinate
    that is not finite or whose magnitude exceeds 1000, the step ends in a
    full rebuild: the particle array is the freshly built grid, every
    particle is at the flat rest-pose position of its grid index, the wind
    force is (0, 0, 0) and the simulation is no longer active. *)
Theorem explosion_rebuilds (cfg : Config float) (st : Fabric float) i p c :
  physics st !! i = Some p ->
  c ∈ Vector3.coords (position p) ->
  PrimFloat.is_finite c = false \/ (nabs c >? ofZ 1000)%js = true ->
  particles (simulate cfg st) = createParticles cfg
  /\ (forall u v, u <= segmentsW cfg -> v <= segmentsH cfg ->
        exists q, particles (simulate cfg st) !! index cfg u v = Some q
                  /\ position q = gridPosition cfg u v
                  /\ initialPositions (simulate cfg st) !! index cfg u v
                     = Some (position q))
  /\ windForce (simulate cfg st) = Vector3.new (ofZ 0) (ofZ 0) (ofZ 0)
  /\ isSimulationActive (simulate cfg st) = false.
Proof.
  intros Hi Hc Hbad.
  assert (outOfRange c = true) as Hout.
  { destruct Hbad as [Hnf|Hbig]; [by apply nonfinite_outOfRange|].
    unfold outOfRange. rewrite Hbig. apply orb_true_r. }
  destruct (simulate_exploded cfg st) as (Hps & Hinit & _ & Hwind & Hact).
  { eapply checkSimulationExploded_intro; [exact Hi|].
    by eapply explodedParticle_coord. }
  split; [done|]. split; [|done].
  intros u v Hu Hv. exists (gridParticle cfg u v).
  rewrite Hps, Hinit, position_gridParticle.
  by rewrite lookup_createParticles, lookup_createInitialPositions.
Qed.

(** ** Forces and integration *)

Section Integration.
Context {num : Type} `{!Number num}.
Local Open Scope js_scope.

Lemma addForce_fields force (p : Particle num) :
  position (addForce force p) = position p
  /\ mass (addForce force p) = mass p
  /\ oldPosition (addForce force p) = oldPosition p
  /\ pinned (addForce force p) = pinned p.
Proof. unfold addForce. by destruct (_ && _). Qed.

Lemma applyForces_fields wind (p : Particle num) :
  position (applyForces wind p) = position p
  /\ mass (applyForces wind p) = mass p
  /\ oldPosition (applyForces wind p) = oldPosition p
  /\ pinned (applyForces wind p) = pinned p.
Proof.
  unfold applyForces.
  repeat match goal with
         | |- context [addForce ?f ?q] =>
             destruct (addForce_fields f q) as (-> & -> & -> & ->)
         end.
  done.
Qed.

Lemma addForce_acceleration_cases force (p : Particle num) :
  acceleration (addForce force p)
  = if hasNaN (Vector3.divideScalar force (mass p)) then acceleration p
    else Vector3.add (acceleration p) (Vector3.divideScalar force (mass p)).
Proof.
  unfold hasNaN, addForce.
  by destruct (isNaN (Vector3.x _)), (isNaN (Vector3.y _)),
    (isNaN (Vector3.z _)).
Qed.

Lemma addForce_acceleration force (p : Particle num) :
  hasNaN (Vector3.divideScalar force (mass p)) = false ->
  acceleration (addForce force p)
  = Vector3.add (acceleration p) (Vector3.divideScalar force (mass p)).
Proof.
  unfold hasNaN, addForce.
  intros [[-> ->]%orb_false_iff ->]%orb_false_iff. done.
Qed.

(** At the start of every step all accelerations are zero: particles are
    built that way, integration resets the acceleration of the particles it
    moves, and nothing else writes it. *)
Lemma moveUnlessPinned_accelerations i f (ps : list (Particle num)) :
  Forall (fun p => acceleration p = Vector3.zero) ps ->
  Forall (fun p => acceleration p = Vector3.zero) (moveUnlessPinned i f ps).
Proof.
  intros Hps. unfold moveUnlessPinned.
  destruct (ps !! i) as [q|] eqn:Hi; [|done].
  destruct (pinned q); [done|].
  apply Forall_insert; [done|]. simpl.
  by apply (Forall_lookup_1 _ _ _ _ Hps Hi).
Qed.

Lemma physics_accelerations (st : Fabric num) :
  Forall (fun p => acceleration p = Vector3.zero) (particles st) ->
  Forall (fun p => acceleration p = Vector3.zero) (physics st).
Proof.
  intros Hst. unfold physics, relax.
  induction numIterations as [|n IH]; simpl.
  - apply Forall_fmap. eapply Forall_impl; [exact Hst|].
    intros p Hp. unfold stepParticle, compose.
    by destruct (pinned p).
  - revert IH. generalize (Nat.iter n (relaxOnce (constraints st))
                             (stepParticle (windForce st) <$> particles st)).
    unfold relaxOnce.
    induction (constraints st) as [|c cs IHcs]; intros ps Hps; simpl; [done|].
    apply IHcs. unfold satisfy.
    destruct (ps !! p1 c); [|done]. destruct (ps !! p2 c); [|done].
    destruct (_ || _); [done|].
    by do 2 apply moveUnlessPinned_accelerations.
Qed.

Lemma createParticles_accelerations (cfg : Config num) :
  Forall (fun p => acceleration p = Vector3.zero) (createParticles cfg).
Proof.
  apply Forall_forall. intros p Hp. unfold createParticles in Hp.
  apply list_elem_of_bind in Hp as (v & Hp & _).
  apply list_elem_of_bind in Hp as (u & Hp & _).
  apply list_elem_of_singleton in Hp as ->.
  unfold gridParticle. by destruct (v =? 0).
Qed.

Lemma simulate_accelerations (cfg : Config num) (st : Fabric num) :
  Forall (fun p => acceleration p = Vector3.zero) (particles st) ->
  Forall (fun p => acceleration p = Vector3.zero)
    (particles (simulate cfg st)).
Proof.
  intros Hst. unfold simulate. simpl.
  destruct (checkSimulationExploded (physics st)); simpl.
  - apply createParticles_accelerations.
  - by apply physics_accelerations.
Qed.

Lemma applyForces_acceleration wind (p : Particle num) :
  hasNaN (Vector3.divideScalar gravity (mass p)) = false ->
  hasNaN (Vector3.divideScalar (windEffect wind) (mass p)) = false ->
  hasNaN (Vector3.divideScalar (flatteningForce p) (mass p)) = false ->
  acceleration (applyForces wind p)
  = Vector3.add
      (Vector3.add
         (Vector3.add (acceleration p)
            (Vector3.divideScalar gravity (mass p)))
         (Vector3.divideScalar (windEffect wind) (mass p)))
      (Vector3.divideScalar (flatteningForce p) (mass p)).
Proof.
  intros Hg Hw Hf. unfold applyForces.
  destruct (addForce_fields gravity p) as (Hp1 & Hm1 & _).
  destruct (addForce_fields (windEffect wind) (addForce gravity p))
    as (Hp2 & Hm2 & _).
  assert (flatteningForce (addForce (windEffect wind) (addForce gravity p))
          = flatteningForce p) as ->
    by (unfold flatteningForce; by rewrite Hp2, Hp1).
  rewrite addForce_acceleration; rewrite Hm2, Hm1; [|exact Hf].
  rewrite addForce_acceleration; rewrite Hm1; [|exact Hw].
  by rewrite addForce_acceleration.
Qed.

(** C3. For an unpinned particle whose unclamped displacement does not
    exceed the cap, the step computes
    [position + (position - oldPosition) * DRAG + acceleration * dt * dt]
    from the accumulated acceleration, with [DRAG = 1 - 0.02] (which is 0.98
    both in doubles and in the reals) and [dt = 1/60], and commits it: the
    old position becomes the position before the step, the position the new
    one, the acceleration zero. *)
Theorem verlet_commit wind (p : Particle num) :
  pinned p = false ->
  (Vector3.length
     (Vector3.subVectors (verlet (applyForces wind p)) (position p))
   >? MAX_DISPLACEMENT) = false ->
  stepParticle wind p
  = {| position :=
         Vector3.add
           (Vector3.addVectors (position p)
              (Vector3.multiplyScalar
                 (Vector3.sub (position p) (oldPosition p))
                 (ofZ 1 - dec 2 2)))
           (Vector3.multiplyScalar (acceleration (applyForces wind p))
              ((ofZ 1 / ofZ 60) * (ofZ 1 / ofZ 60)));
       mass := mass p;
       oldPosition := position p;
       acceleration := Vector3.new (ofZ 0) (ofZ 0) (ofZ 0);
       pinned := false |}
  /\ (ofZ 1 - dec 2 2 : float) = dec 98 2
  /\ (ofZ 1 - dec 2 2 : R) = dec 98 2.
Proof.
  intros Hp Hcap. split; [|split].
  - unfold stepParticle, integrate, limitDisplacement. rewrite Hp.
    destruct (applyForces_fields wind p) as (Hpos & Hm & Hold & Hpin).
    rewrite Hpos, Hcap, Hm, Hpin, Hp.
    unfold verlet. by rewrite Hpos, Hold.
  - vm_compute. reflexivity.
  - decimals. lra.
Qed.

End Integration.

(** C5, as the code has it. The acceleration the three [addForce] calls
    of [simulate] leave on a particle is its acceleration on entry (zero at
    every step) to which are added, in this order, the quotients by the
    particle's mass of gravity (0, -0.2, 0), of the wind force (0, 0, w)
    with w the y-component of the wind vector, and of the flattening force
    (0, 0, -z * 0.02); a quotient with a NaN component is left out, and
    nothing else is added. The calls change no other field, and [simulate]
    makes them for unpinned particles only, right before integration. *)
Theorem forces_accumulated :
  forall (num : Type) (N : Number num) (wind : Vector3 num)
         (p : Particle num),
    let quotient force := Vector3.divideScalar force (mass p) in
    let plus a force :=
      if hasNaN (quotient force) then a
      else Vector3.add a (quotient force) in
    acceleration (applyForces wind p)
    = plus (plus (plus (acceleration p)
                       (Vector3.new (ofZ 0) (- dec 2 1) (ofZ 0))%js)
                 (Vector3.new (ofZ 0) (ofZ 0) (Vector3.y wind)))
           (Vector3.new (ofZ 0) (ofZ 0)
              (- Vector3.z (position p) * dec 2 2)%js)
    /\ position (applyForces wind p) = position p
    /\ mass (applyForces wind p) = mass p
    /\ oldPosition (applyForces wind p) = oldPosition p
    /\ pinned (applyForces wind p) = pinned p
    /\ stepParticle wind p
       = if pinned p then p else integrate (applyForces wind p).
Proof.
  intros num N wind p quotient plus.
  split; [|split; [|split; [|split; [|split]]]];
    try apply applyForces_fields; [|done].
  unfold applyForces.
  destruct (addForce_fields gravity p) as (Hp1 & Hm1 & _).
  destruct (addForce_fields (windEffect wind) (addForce gravity p))
    as (Hp2 & Hm2 & _).
  rewrite !addForce_acceleration_cases, Hm2, Hm1.
  unfold flatteningForce. rewrite Hp2, Hp1. done.
Qed.

(** ** One constraint *)

Section Satisfy.
Context {num : Type} `{!Number num}.
Local Open Scope js_scope.

Lemma moveUnlessPinned_lookup i f (ps : list (Particle num)) q :
  ps !! i = Some q ->
  moveUnlessPinned i f ps !! i
  = Some (if pinned q then q else setPosition (f (position q)) q).
Proof.
  intros Hi. unfold moveUnlessPinned. rewrite Hi.
  destruct (pinned q); [done|].
  apply list_lookup_insert_eq. by eapply lookup_lt_Some.
Qed.

Lemma moveUnlessPinned_lookup_ne i k f (ps : list (Particle num)) :
  i <> k -> moveUnlessPinned i f ps !! k = ps !! k.
Proof.
  intros Hne. unfold moveUnlessPinned.
  destruct (ps !! i) as [q|]; [|done].
  destruct (pinned q); [done|]. by apply list_lookup_insert_ne.
Qed.

Lemma satisfy_degenerate (c : Constraint num) ps a b :
  ps !! p1 c = Some a ->
  ps !! p2 c = Some b ->
  let currentDist :=
    Vector3.length (Vector3.subVectors (position b) (position a)) in
  (currentDist === ofZ 0) || isNaN currentDist = true ->
  satisfy c ps = ps.
Proof. intros Ha Hb. simpl. unfold satisfy. rewrite Ha, Hb. by intros ->. Qed.

Lemma satisfy_moves (c : Constraint num) ps a b :
  ps !! p1 c = Some a ->
  ps !! p2 c = Some b ->
  p1 c <> p2 c ->
  let currentDist :=
    Vector3.length (Vector3.subVectors (position b) (position a)) in
  let half := correctionHalf c (position a) (position b) in
  (currentDist === ofZ 0) || isNaN currentDist = false ->
  satisfy c ps !! p1 c
  = Some (if pinned a then a
          else setPosition (Vector3.add (position a) half) a)
  /\ satisfy c ps !! p2 c
     = Some (if pinned b then b
             else setPosition (Vector3.sub (position b) half) b)
  /\ forall k, k <> p1 c -> k <> p2 c -> satisfy c ps !! k = ps !! k.
Proof.
  intros Ha Hb Hne. simpl. unfold satisfy. rewrite Ha, Hb. intros ->.
  fold (correctionHalf c (position a) (position b)).
  split; [|split].
  - rewrite moveUnlessPinned_lookup_ne by done.
    by apply moveUnlessPinned_lookup.
  - apply moveUnlessPinned_lookup.
    by rewrite moveUnlessPinned_lookup_ne.
  - intros k Hk1 Hk2. by rewrite !moveUnlessPinned_lookup_ne.
Qed.

(** C7, as the code has it. For a constraint between two distinct
    particles: if the current distance is zero or NaN, [satisfy] leaves the
    whole particle store as it is; in every other case (an infinite
    distance included) it adds half the correction vector to the position
    of the first endpoint unless that one is pinned, subtracts it from the
    position of the second unless that one is pinned, and touches no other
    particle. *)
Theorem satisfy_spec (c : Constraint num) ps a b :
  ps !! p1 c = Some a ->
  ps !! p2 c = Some b ->
  p1 c <> p2 c ->
  let currentDist :=
    Vector3.length (Vector3.subVectors (position b) (position a)) in
  let half := correctionHalf c (position a) (position b) in
  ((currentDist === ofZ 0) = true \/ isNaN currentDist = true ->
   satisfy c ps = ps)
  /\ ((currentDist === ofZ 0) = false -> isNaN currentDist = false ->
      satisfy c ps !! p1 c
      = Some (if pinned a then a
              else setPosition (Vector3.add (position a) half) a)
      /\ satisfy c ps !! p2 c
         = Some (if pinned b then b
                 else setPosition (Vector3.sub (position b) half) b)
      /\ forall k, k <> p1 c -> k <> p2 c -> satisfy c ps !! k = ps !! k).
Proof.
  intros Ha Hb Hne. simpl. split.
  - intros Hdeg. apply (satisfy_degenerate c ps a b Ha Hb).
    simpl. by destruct Hdeg as [-> | ->]; rewrite ?orb_true_r.
  - intros H0 Hnan. apply (satisfy_moves c ps a b Ha Hb Hne).
    simpl. by rewrite H0, Hnan.
Qed.

End Satisfy.

(** In exact arithmetic equal and opposite half-corrections cancel: the
    sum of the two positions is the same before and after. *)
Lemma midpoint_kept_exactly (c : Constraint R) ps a b :
  ps !! p1 c = Some a ->
  ps !! p2 c = Some b ->
  pinned a = false ->
  pinned b = false ->
  Vector3.length (Vector3.subVectors (position b) (position a)) <> 0%R ->
  exists a' b',
    satisfy c ps !! p1 c = Some a'
    /\ satisfy c ps !! p2 c = Some b'
    /\ Vector3.addVectors (position a') (position b')
       = Vector3.addVectors (position a) (position b).
Proof.
  intros Ha Hb Hpa Hpb Hd.
  assert (p1 c <> p2 c) as Hne.
  { intros Heq. rewrite Heq, Hb in Ha. injection Ha as ->.
    apply Hd. unfold Vector3.length, Vector3.subVectors. simpl.
    replace (_ + _ + _)%R with 0%R by ring. apply sqrt_0. }
  destruct (satisfy_moves c ps a b Ha Hb Hne) as (H1 & H2 & _).
  { simpl. by destruct (Req_dec_T _ _). }
  rewrite Hpa in H1. rewrite Hpb in H2.
  eexists _, _. split; [exact H1|]. split; [exact H2|].
  unfold Vector3.addVectors, Vector3.add, Vector3.sub, Vector3.subVectors,
    Vector3.addVectors. simpl.
  f_equal; ring.
Qed.

(** C10, as the code has it. When both endpoints of a constraint are
    unpinned and their distance is a number other than zero, [satisfy] adds
    to the first position the half correction
    [(p2.position - p1.position) * (1 - distance / currentDist) * 0.5],
    computed once from the positions before the call, subtracts the very
    same vector from the second position, and leaves every other particle
    alone (in every number model). Each of the two updates is rounded on
    its own, so on doubles the sum of the two positions need not be the
    same afterwards. *)
Theorem satisfy_midpoint :
  forall (num : Type) (N : Number num) (c : Constraint num) ps a b,
    ps !! p1 c = Some a ->
    ps !! p2 c = Some b ->
    p1 c <> p2 c ->
    pinned a = false ->
    pinned b = false ->
    let p1p2 := Vector3.subVectors (position b) (position a) in
    let currentDist := Vector3.length p1p2 in
    let half :=
      Vector3.multiplyScalar
        (Vector3.multiplyScalar p1p2 (ofZ 1 - distance c / currentDist)%js)
        (dec 5 1) in
    (currentDist === ofZ 0)%js = false ->
    isNaN currentDist = false ->
    satisfy c ps !! p1 c
    = Some (setPosition (Vector3.addVectors (position a) half) a)
    /\ satisfy c ps !! p2 c
       = Some (setPosition (Vector3.subVectors (position b) half) b)
    /\ (forall k, k <> p1 c -> k <> p2 c -> satisfy c ps !! k = ps !! k).
Proof.
  intros num N c ps a b Ha Hb Hne Hpa Hpb. cbv zeta. intros H0 Hnan.
  destruct (satisfy_moves c ps a b Ha Hb Hne) as (H1 & H2 & Hk).
  { simpl. by rewrite H0, Hnan. }
  rewrite Hpa in H1. rewrite Hpb in H2. done.
Qed.

(** ** The displacement limit *)

Section Cap.
Local Open Scope R_scope.

Lemma length_nonneg (u : Vector3 R) : 0 <= Vector3.length u.
Proof. apply sqrt_pos. Qed.

Lemma length_multiplyScalar (u : Vector3 R) (k : R) :
  0 <= k ->
  Vector3.length (Vector3.multiplyScalar u k) = k * Vector3.length u.
Proof.
  intros Hk. unfold Vector3.length, Vector3.multiplyScalar. simpl.
  replace (Vector3.x u * k * (Vector3.x u * k)
           + Vector3.y u * k * (Vector3.y u * k)
           + Vector3.z u * k * (Vector3.z u * k))
    with (k * k * (Vector3.x u * Vector3.x u + Vector3.y u * Vector3.y u
                   + Vector3.z u * Vector3.z u)) by ring.
  rewrite sqrt_mult_alt by nra. by rewrite sqrt_square.
Qed.

Lemma add_subVectors (a d : Vector3 R) :
  Vector3.subVectors (Vector3.add a d) a = d.
Proof.
  destruct d. unfold Vector3.subVectors, Vector3.add, Vector3.addVectors.
  simpl. f_equal; ring.
Qed.

Lemma orElse_nonzero (a b : R) : a <> 0 -> orElse a b = a.
Proof.
  intros Ha. unfold orElse. cbn [strictEq isNaN real_Number ofZ].
  by destruct (Req_dec_T a 0).
Qed.

(** The displacement [limitDisplacement] leaves, when the cap applies. *)
Lemma limitDisplacement_capped (p : Particle R) (newPos : Vector3 R) :
  let u := Vector3.subVectors newPos (position p) in
  Vector3.length u > 5 ->
  Vector3.subVectors (limitDisplacement p newPos) (position p)
  = Vector3.multiplyScalar u (5 / Vector3.length u).
Proof.
  intros u Hu. unfold limitDisplacement. fold u.
  unfold MAX_DISPLACEMENT. cbn [ngt real_Number ofZ].
  destruct (Rgt_dec (Vector3.length u) 5) as [_|Hn]; [|done].
  rewrite add_subVectors.
  unfold Vector3.normalize, Vector3.divideScalar.
  rewrite orElse_nonzero by lra.
  revert Hu. generalize (Vector3.length u). intros l Hl.
  unfold Vector3.multiplyScalar. simpl. f_equal; field; lra.
Qed.

(** In every number model the step commits, for an unpinned particle with
    unclamped displacement [u], the position [position + normalize(u) * 5]
    when [|u| > MAX_DISPLACEMENT = 5] and the Verlet position otherwise. In
    exact arithmetic the committed displacement is then at most 5 long, and
    exactly 5 long in the direction of [u] when [u] is longer than 5. *)
Lemma cap_exact :
  (forall (num : Type) (N : Number num) (wind : Vector3 num)
          (p : Particle num),
      pinned p = false ->
      let u :=
        Vector3.subVectors (verlet (applyForces wind p)) (position p) in
      position (stepParticle wind p)
      = if (Vector3.length u >? MAX_DISPLACEMENT)%js
        then Vector3.add (position p)
               (Vector3.multiplyScalar (Vector3.normalize u)
                  MAX_DISPLACEMENT)
        else verlet (applyForces wind p))
  /\ (forall (wind : Vector3 R) (p : Particle R),
        pinned p = false ->
        let u :=
          Vector3.subVectors (verlet (applyForces wind p)) (position p) in
        let d :=
          Vector3.subVectors (position (stepParticle wind p)) (position p) in
        Vector3.length d <= 5
        /\ (Vector3.length u > 5 ->
            d = Vector3.multiplyScalar u (5 / Vector3.length u)
            /\ 0 < 5 / Vector3.length u
            /\ Vector3.length d = 5)
        /\ (Vector3.length u = 50 ->
            d = Vector3.multiplyScalar u (1 / 10) /\ Vector3.length d = 5)
        /\ (Vector3.length u <= 5 -> d = u)).
Proof.
  split.
  { intros num N wind p Hp.
    destruct (applyForces_fields wind p) as (Hpos & _).
    unfold stepParticle, integrate, limitDisplacement. rewrite Hp.
    cbn [position]. by rewrite Hpos. }
  intros wind p Hp u d.
  destruct (applyForces_fields wind p) as (Hpos & _ & _ & Hpin).
  assert (d = Vector3.subVectors
                (limitDisplacement (applyForces wind p)
                   (verlet (applyForces wind p)))
                (position (applyForces wind p))) as Hd.
  { unfold d, stepParticle. rewrite Hp. unfold integrate.
    cbn [position]. by rewrite Hpos. }
  assert (Vector3.length u > 5 ->
          d = Vector3.multiplyScalar u (5 / Vector3.length u)
          /\ 0 < 5 / Vector3.length u
          /\ Vector3.length d = 5) as Hcap.
  { intros Hu.
    assert (0 < 5 / Vector3.length u) as Hk
      by (apply Rdiv_lt_0_compat; lra).
    assert (d = Vector3.multiplyScalar u (5 / Vector3.length u)) as ->.
    { rewrite Hd, limitDisplacement_capped; rewrite Hpos; done. }
    split; [done|]. split; [done|].
    rewrite length_multiplyScalar by lra. field. lra. }
  assert (Vector3.length u <= 5 -> d = u) as Hfree.
  { intros Hu. rewrite Hd. unfold limitDisplacement. rewrite Hpos. fold u.
    unfold MAX_DISPLACEMENT. cbn [ngt real_Number ofZ].
    destruct (Rgt_dec (Vector3.length u) 5); [lra|done]. }
  split; [|split; [done|split; [|done]]].
  - destruct (Rle_dec (Vector3.length u) 5) as [Hle|Hgt].
    + by rewrite Hfree.
    + destruct Hcap as (_ & _ & ->); lra.
  - intros H50. destruct Hcap as (Hd' & _ & Hlen); [lra|].
    split; [|done]. rewrite Hd', H50. f_equal. lra.
Qed.

End Cap.

(** ** The stability test *)

#[export] Instance real_OrderLaws : OrderLaws R.
Proof.
  split; try done. intros a b _ _. simpl.
  destruct (Rgt_dec a b), (Rle_dec a b); simpl; try done; lra.
Qed.

Lemma SFcompare_antisym (x y : SpecFloat.spec_float) :
  SpecFloat.SFcompare y x = option_map CompOpp (SpecFloat.SFcompare x y).
Proof.
  destruct x as [sx|sx| |sx mx ex], y as [sy|sy| |sy my ey]; simpl;
    try done; try (by destruct sx); try (by destruct sy);
    try (by destruct sx, sy).
  destruct sx, sy; simpl; try done.
  - rewrite (Z.compare_antisym ey ex).
    destruct (ey ?= ex)%Z eqn:He; simpl; try done.
    by rewrite (Pos.compare_cont_antisym mx my Eq).
  - rewrite (Z.compare_antisym ey ex).
    destruct (ey ?= ex)%Z eqn:He; simpl; try done.
    by rewrite (Pos.compare_cont_antisym mx my Eq).
Qed.

Lemma is_nan_Prim2SF (a : float) :
  PrimFloat.is_nan a = false -> FloatOps.Prim2SF a <> SpecFloat.S754_nan.
Proof.
  unfold PrimFloat.is_nan. rewrite FloatAxioms.eqb_spec.
  intros Ha Hnan. rewrite Hnan in Ha. discriminate Ha.
Qed.

#[export] Instance float_OrderLaws : OrderLaws float.
Proof.
  split; try (by vm_compute).
  intros a b Ha%is_nan_Prim2SF Hb%is_nan_Prim2SF. simpl.
  rewrite FloatAxioms.ltb_spec, FloatAxioms.leb_spec.
  unfold SpecFloat.SFltb, SpecFloat.SFleb. rewrite SFcompare_antisym.
  destruct (FloatOps.Prim2SF a) as [?|?| |? ? ?] eqn:Ea; try done;
    destruct (FloatOps.Prim2SF b) as [?|?| |? ? ?] eqn:Eb; try done;
    match goal with
    | |- context [SpecFloat.SFcompare ?x ?y] =>
        destruct (SpecFloat.SFcompare x y) as [[]|] eqn:Ec
    end; try done; simpl in Ec;
    repeat match goal with
           | s : bool |- _ => destruct s
           end; discriminate Ec.
Qed.

Section Stability.
Context {num : Type} `{!Number num}.
Local Open Scope js_scope.

Lemma isClothStableFrom_forall (ps : list (Particle num)) :
  isClothStableFrom ps = true
  <-> forall p, p ∈ ps -> pinned p = false -> stillMoving p = false.
Proof.
  induction ps as [|q ps IH]; simpl.
  - split; [|done]. intros _ p Hp. by apply elem_of_nil in Hp.
  - destruct (pinned q) eqn:Hq; simpl.
    + rewrite IH. split.
      * intros H p [->|Hp]%elem_of_cons Hpin; [congruence | by apply H].
      * intros H p Hp. apply H. by right.
    + destruct (stillMoving q) eqn:Hm.
      * split; [done|]. intros H.
        rewrite (H q) in Hm; [done | by left | done].
      * rewrite IH. split.
        -- intros H p [->|Hp]%elem_of_cons Hpin; [done | by apply H].
        -- intros H p Hp. apply H. by right.
Qed.


(** When the two velocities of every unpinned particle are numbers, that
    is the test with [<=] on every one of them. *)
Lemma isClothStable_le `{!OrderLaws num} (st : Fabric num) :
  (forall p, p ∈ particles st -> pinned p = false ->
     isNaN (velocity p) = false /\ isNaN (zVelocity p) = false) ->
  isClothStable st = true
  <-> forall p, p ∈ particles st -> pinned p = false ->
        (velocity p <=? dec 1 2) = true /\ (zVelocity p <=? dec 5 2) = true.
Proof.
  intros Hnum. unfold isClothStable. rewrite isClothStableFrom_forall.
  apply forall_proper. intros p.
  split; intros H Hp Hpin; specialize (H Hp Hpin);
    destruct (Hnum p Hp Hpin) as [Hv Hz];
    unfold stillMoving in *; fold (velocity p) in *; fold (zVelocity p) in *;
    rewrite (ngt_nle _ _ Hv velocityThreshold_number),
      (ngt_nle _ _ Hz zMovementThreshold_number) in *;
    unfold velocityThreshold, zMovementThreshold in *.
  - apply orb_false_iff in H as [H1 H2].
    by rewrite negb_false_iff in H1, H2.
  - destruct H as [-> ->]. done.
Qed.

End Stability.

Lemma SFeqb_refl (s : SpecFloat.spec_float) :
  s <> SpecFloat.S754_nan -> SpecFloat.SFeqb s s = true.
Proof.
  unfold SpecFloat.SFeqb.
  destruct s as [sg|sg| |sg m e]; try done; try (by destruct sg).
  intros _. simpl.
  destruct sg; by rewrite Z.compare_refl, ?Pos.compare_cont_refl.
Qed.

Lemma is_nan_true_Prim2SF (a : float) :
  PrimFloat.is_nan a = true -> FloatOps.Prim2SF a = SpecFloat.S754_nan.
Proof.
  unfold PrimFloat.is_nan. rewrite FloatAxioms.eqb_spec.
  intros Ha%negb_true_iff.
  destruct (FloatOps.Prim2SF a) as [sg|sg| |sg m e] eqn:Es; [| |done|];
    by rewrite SFeqb_refl in Ha.
Qed.

(** On doubles a comparison with NaN is false, so [a > b] fails exactly
    when [a] is NaN or [a <= b] (for [b] a number). *)
Lemma not_gt_double (a b : float) :
  PrimFloat.is_nan b = false ->
  (a >? b)%js = false
  <-> PrimFloat.is_nan a = true \/ (a <=? b)%js = true.
Proof.
  intros Hb. destruct (PrimFloat.is_nan a) eqn:Ha.
  - split; [by left|]. intros _. simpl.
    rewrite FloatAxioms.ltb_spec, (is_nan_true_Prim2SF a Ha).
    unfold SpecFloat.SFltb.
    by destruct (FloatOps.Prim2SF b) as [?|?| |? ? ?].
  - rewrite (@ngt_nle float float_Number float_OrderLaws a b Ha Hb),
      negb_false_iff.
    split; [by right|]. by intros [?|?].
Qed.


(** ** The displacement limit on doubles *)

Section CapOnDoubles.
Local Open Scope js_scope.

(** A double above 5 is a number and not zero: the fallback of
    [length() || 1] in [normalize] is not taken. *)
Lemma orElse_above_cap (l : float) :
  (l >? ofZ 5) = true -> orElse l (ofZ 1) = l.
Proof.
  intros Hl. unfold orElse.
  assert (FloatOps.Prim2SF l <> SpecFloat.S754_nan
          /\ (l === ofZ 0) = false) as [Hnum H0].
  { revert Hl. simpl.
    rewrite FloatAxioms.ltb_spec, FloatAxioms.eqb_spec.
    replace (FloatOps.Prim2SF (F64.ofZ 5))
      with (SpecFloat.S754_finite false 5629499534213120 (-50))
      by (by vm_compute).
    replace (FloatOps.Prim2SF (F64.ofZ 0))
      with (SpecFloat.S754_zero false) by (by vm_compute).
    destruct (FloatOps.Prim2SF l) as [sg|sg| |sg m e]; try done;
      destruct sg; done. }
  rewrite H0. simpl. unfold PrimFloat.is_nan.
  by rewrite FloatAxioms.eqb_spec, SFeqb_refl.
Qed.

(** A finite double is a zero or a finite value in the IEEE
    specification. *)
Lemma is_finite_Prim2SF (c : float) :
  PrimFloat.is_finite c = true ->
  (exists sg, FloatOps.Prim2SF c = SpecFloat.S754_zero sg)
  \/ (exists sg m e, FloatOps.Prim2SF c = SpecFloat.S754_finite sg m e).
Proof.
  unfold PrimFloat.is_finite, PrimFloat.is_infinity, PrimFloat.is_nan.
  rewrite !FloatAxioms.eqb_spec, FloatAxioms.abs_spec.
  replace (FloatOps.Prim2SF PrimFloat.infinity)
    with (SpecFloat.S754_infinity false) by (by vm_compute).
  destruct (FloatOps.Prim2SF c) as [sg|sg| |sg m e]; intros Hc.
  - left. by exists sg.
  - by destruct sg.
  - done.
  - right. by exists sg, m, e.
Qed.

(** What is left of a finite coordinate when the length has overflowed:
    [c * (1 / Infinity) * 5] is a zero. *)
Lemma overflow_coordinate (c : float) :
  PrimFloat.is_finite c = true ->
  (c * (ofZ 1 / PrimFloat.infinity) * ofZ 5 === ofZ 0) = true.
Proof.
  intros Hc. simpl.
  replace (F64.ofZ 1 / PrimFloat.infinity)%float with 0%float
    by (by vm_compute).
  rewrite FloatAxioms.eqb_spec, !FloatAxioms.mul_spec.
  replace (FloatOps.Prim2SF (F64.ofZ 5))
    with (SpecFloat.S754_finite false 5629499534213120 (-50))
    by (by vm_compute).
  replace (FloatOps.Prim2SF (F64.ofZ 0))
    with (SpecFloat.S754_zero false) by (by vm_compute).
  replace (FloatOps.Prim2SF 0%float)
    with (SpecFloat.S754_zero false) by (by vm_compute).
  destruct (is_finite_Prim2SF c Hc) as [[sg ->]|(sg & m & e & ->)];
    by destruct sg.
Qed.

(** C4, as the code has it, on doubles. For an unpinned particle with
    tentative displacement [u] of length [len]: when [len > 5] the step
    commits [position + (u * (1 / len)) * 5], every operation rounded, and
    the Verlet position when [len] is at most 5 or NaN. When [len] has
    overflowed to infinity and [u] is finite, the displacement applied is
    zero in every coordinate. *)
Theorem displacement_capped (wind : Vector3 float) (p : Particle float) :
  pinned p = false ->
  let newPos := verlet (applyForces wind p) in
  let u := Vector3.subVectors newPos (position p) in
  let len := Vector3.length u in
  let capped :=
    Vector3.multiplyScalar (Vector3.multiplyScalar u (ofZ 1 / len))
      (ofZ 5) in
  position (stepParticle wind p)
  = (if len >? ofZ 5 then Vector3.addVectors (position p) capped
     else newPos)
  /\ (PrimFloat.is_nan len = true \/ (len <=? ofZ 5) = true ->
      position (stepParticle wind p) = newPos)
  /\ (len = PrimFloat.infinity ->
      Forall (fun c => PrimFloat.is_finite c = true) (Vector3.coords u) ->
      position (stepParticle wind p)
      = Vector3.addVectors (position p) capped
      /\ Forall (fun c => (c === ofZ 0) = true) (Vector3.coords capped)).
Proof.
  intros Hp newPos u len capped.
  assert (position (stepParticle wind p)
          = (if len >? ofZ 5 then Vector3.addVectors (position p) capped
             else newPos)) as Hstep.
  { destruct (applyForces_fields wind p) as (Hpos & _).
    unfold stepParticle, integrate, limitDisplacement. rewrite Hp.
    cbn [position]. rewrite Hpos. fold newPos u len.
    unfold MAX_DISPLACEMENT.
    destruct (len >? ofZ 5) eqn:Hlen; [|done].
    unfold Vector3.normalize, Vector3.divideScalar. fold len.
    by rewrite (orElse_above_cap len Hlen). }
  split; [done|]. split.
  - intros Hle. rewrite Hstep.
    apply (not_gt_double len (ofZ 5)) in Hle; [by rewrite Hle|by vm_compute].
  - intros Hinf Hfin. rewrite Hstep.
    assert ((len >? ofZ 5) = true) as -> by (rewrite Hinf; by vm_compute).
    split; [done|].
    unfold capped, Vector3.multiplyScalar, Vector3.coords. cbn [Vector3.x
      Vector3.y Vector3.z]. rewrite Hinf.
    unfold Vector3.coords in Hfin.
    apply Forall_cons in Hfin as [Hx Hfin].
    apply Forall_cons in Hfin as [Hy Hfin].
    apply Forall_cons in Hfin as [Hz _].
    repeat (apply Forall_cons; split; [by apply overflow_coordinate|]).
    apply Forall_nil. done.
Qed.

End CapOnDoubles.

(** ** Scroll to wind *)

Section Scroll.
Context {num : Type} `{!Number num}.
Local Open Scope js_scope.




End Scroll.



(** ** The constraint set *)

Section PairLoops.
Context {A : Type}.

Lemma fmap_bind {B C : Type} (f : B -> C) (g : A -> list B) (l : list A) :
  f <$> (l ≫= g) = l ≫= (fun a => f <$> g a).
Proof.
  induction l as [|a l IH]; [done|].
  by rewrite !bind_cons, fmap_app, IH.
Qed.

Lemma length_pairs (f g : nat -> A) (W : nat) :
  length (u ← seq 0 W; [f u; g u]) = 2 * W.
Proof.
  induction W as [|W IH]; [done|].
  rewrite seq_S, bind_app, length_app, IH. simpl. lia.
Qed.

(** A loop that pushes two elements per round. *)
Lemma lookup_pairs (f g : nat -> A) (W u : nat) :
  u < W ->
  (u ← seq 0 W; [f u; g u]) !! (2 * u) = Some (f u)
  /\ (u ← seq 0 W; [f u; g u]) !! (2 * u + 1) = Some (g u).
Proof.
  induction W as [|W IH]; [lia|]. intros Hu.
  rewrite seq_S, bind_app.
  replace ([0 + W] ≫= (fun u => [f u; g u])) with [f W; g W] by done.
  destruct (decide (u < W)) as [Hlt|Hge].
  - destruct (IH Hlt) as [H1 H2].
    rewrite !lookup_app_l by (rewrite length_pairs; lia). done.
  - assert (u = W) as -> by lia.
    rewrite !lookup_app_r by (rewrite length_pairs; lia).
    rewrite length_pairs.
    replace (2 * W - 2 * W) with 0 by lia.
    replace (2 * W + 1 - 2 * W) with 1 by lia. done.
Qed.

End PairLoops.

Section Constraints.
Context {num : Type} `{!Number num}.
Implicit Types (cfg : Config num) (e : nat * nat).

Lemma ends_createConstraints cfg :
  ends <$> createConstraints cfg
  = (v ← seq 0 (segmentsH cfg);
     u ← seq 0 (segmentsW cfg);
     [(index cfg u v, index cfg (u + 1) v);
      (index cfg u v, index cfg u (v + 1))])
    ++ (u ← seq 0 (segmentsW cfg);
        [(index cfg u (segmentsH cfg), index cfg (u + 1) (segmentsH cfg))])
    ++ (v ← seq 0 (segmentsH cfg);
        [(index cfg (segmentsW cfg) v, index cfg (segmentsW cfg) (v + 1))]).
Proof.
  unfold createConstraints. rewrite !fmap_app, !fmap_bind.
  f_equal.
  apply list_bind_ext; [|done]. intros v. by rewrite fmap_bind.
Qed.

Lemma index_inj cfg u v u' v' :
  u <= segmentsW cfg -> u' <= segmentsW cfg ->
  index cfg u v = index cfg u' v' -> u = u' /\ v = v'.
Proof.
  unfold index. intros Hu Hu' Heq.
  assert (v = v') as -> by nia. split; lia.
Qed.

(** Settles goals about equal or different grid pairs by the injectivity
    of [index] on the grid's columns. *)
Ltac grid_pairs cfg :=
  repeat match goal with
         | H : (_, _) = (_, _) |- _ =>
             apply pair_equal_spec in H as [? ?]
         end;
  repeat match goal with
         | H : index cfg _ _ = index cfg _ _ |- _ =>
             apply index_inj in H as [? ?]; [|lia|lia]
         end;
  subst; try done; try lia.

Section CellsOfConstraints.
Context (cfg : Config num).
#[local] Abbreviation W := (segmentsW cfg).
#[local] Abbreviation H := (segmentsH cfg).

Lemma elem_of_cells e :
  e ∈ cellPairs cfg
  <-> exists u v, u < W /\ v < H /\ (e = hPair cfg u v \/ e = vPair cfg u v).
Proof using Type.
  unfold cellPairs. rewrite list_elem_of_bind. split.
  - intros (v & (u & He & Hu%elem_of_seq)%list_elem_of_bind & Hv%elem_of_seq).
    exists u, v. rewrite !elem_of_cons, elem_of_nil in He.
    split; [lia|]. split; [lia|]. tauto.
  - intros (u & v & Hu & Hv & He). exists v.
    rewrite list_elem_of_bind, elem_of_seq. split; [|lia].
    exists u. rewrite !elem_of_cons, elem_of_seq. split; [tauto|lia].
Qed.

Lemma elem_of_bottom e :
  e ∈ bottomPairs cfg <-> exists u, u < W /\ e = hPair cfg u H.
Proof using Type.
  unfold bottomPairs. rewrite list_elem_of_bind. split.
  - intros (u & He%list_elem_of_singleton & Hu%elem_of_seq).
    exists u. split; [lia|done].
  - intros (u & Hu & He). exists u.
    rewrite list_elem_of_singleton, elem_of_seq. split; [done|lia].
Qed.

Lemma elem_of_right e :
  e ∈ rightPairs cfg <-> exists v, v < H /\ e = vPair cfg W v.
Proof using Type.
  unfold rightPairs. rewrite list_elem_of_bind. split.
  - intros (v & He%list_elem_of_singleton & Hv%elem_of_seq).
    exists v. split; [lia|done].
  - intros (v & Hv & He). exists v.
    rewrite list_elem_of_singleton, elem_of_seq. split; [done|lia].
Qed.

Lemma ends_parts :
  ends <$> createConstraints cfg
  = cellPairs cfg ++ bottomPairs cfg ++ rightPairs cfg.
Proof using Type. apply ends_createConstraints. Qed.

Lemma elem_of_ends e :
  e ∈ ends <$> createConstraints cfg
  <-> horizontalPair cfg e \/ verticalPair cfg e.
Proof using Type.
  rewrite ends_parts, !elem_of_app, elem_of_cells, elem_of_bottom,
    elem_of_right.
  unfold horizontalPair, verticalPair.  split.
  - intros [(u & v & Hu & Hv & [->| ->])|[(u & Hu & ->)|(v & Hv & ->)]].
    + left. exists u, v. split; [done|]. split; [lia|done].
    + right. exists u, v. split; [lia|]. done.
    + left. exists u, H. split; [done|]. split; [lia|done].
    + right. exists W, v. split; [lia|]. done.
  - intros [(u & v & Hu & Hv & ->)|(u & v & Hu & Hv & ->)].
    + destruct (decide (v < H)) as [Hlt|Hge].
      * left. exists u, v. split; [done|]. split; [done|]. by left.
      * right. left. exists u. assert (v = H) as -> by lia. done.
    + destruct (decide (u < W)) as [Hlt|Hge].
      * left. exists u, v. split; [done|]. split; [done|]. by right.
      * right. right. exists v. assert (u = W) as -> by lia. done.
Qed.

Lemma elem_of_pairsAsSpecified e :
  e ∈ pairsAsSpecified cfg <-> horizontalPair cfg e \/ verticalPair cfg e.
Proof using Type.
  unfold pairsAsSpecified, horizontalPair, verticalPair.
  rewrite elem_of_app, !list_elem_of_bind. split.
  - intros [(v & Hv & Hin%elem_of_seq)|(v & Hv & Hin%elem_of_seq)];
      apply list_elem_of_bind in Hv as (u & ->%list_elem_of_singleton
                                          & Hu%elem_of_seq).
    + left. exists u, v. split; [lia|]. split; [lia|done].
    + right. exists u, v. split; [lia|]. split; [lia|done].
  - intros [(u & v & Hu & Hv & ->)|(u & v & Hu & Hv & ->)].
    + left. exists v. rewrite list_elem_of_bind, elem_of_seq.
      split; [|lia]. exists u.
      rewrite list_elem_of_singleton, elem_of_seq. split; [done|lia].
    + right. exists v. rewrite list_elem_of_bind, elem_of_seq.
      split; [|lia]. exists u.
      rewrite list_elem_of_singleton, elem_of_seq. split; [done|lia].
Qed.

Lemma NoDup_ends : NoDup (ends <$> createConstraints cfg).
Proof using Type.
  rewrite ends_parts. apply NoDup_app. split; [|split].
  - unfold cellPairs. apply NoDup_bind; [| |apply NoDup_seq].
    + intros v1 v2 e _ _.
      intros (u1 & He1 & Hu1%elem_of_seq)%list_elem_of_bind.
      intros (u2 & He2 & Hu2%elem_of_seq)%list_elem_of_bind.
      rewrite !elem_of_cons, elem_of_nil in He1, He2.
      unfold hPair, vPair in *.
      destruct He1 as [->|[->|[]]], He2 as [He|[He|[]]]; grid_pairs cfg.
    + intros v _. apply NoDup_bind; [| |apply NoDup_seq].
      * intros u1 u2 e Hu1%elem_of_seq Hu2%elem_of_seq He1 He2.
        rewrite !elem_of_cons, elem_of_nil in He1, He2.
        unfold hPair, vPair in *.
        destruct He1 as [->|[->|[]]], He2 as [He|[He|[]]]; grid_pairs cfg.
      * intros u Hu%elem_of_seq.
        apply NoDup_cons. split; [|apply NoDup_singleton].
        rewrite list_elem_of_singleton. unfold hPair, vPair. intros He.
        grid_pairs cfg.
  - intros e (u & v & Hu & Hv & He)%elem_of_cells.
    rewrite elem_of_app, elem_of_bottom, elem_of_right.
    unfold hPair, vPair in *.
    intros [(u' & Hu' & He')|(v' & Hv' & He')];
      destruct He as [->| ->]; grid_pairs cfg.
  - apply NoDup_app. split; [|split].
    + unfold bottomPairs. apply NoDup_bind; [| |apply NoDup_seq].
      * intros u1 u2 e Hu1%elem_of_seq Hu2%elem_of_seq.
        rewrite !list_elem_of_singleton. intros -> He.
        unfold hPair in He. grid_pairs cfg.
      * intros. apply NoDup_singleton.
    + intros e (u & Hu & ->)%elem_of_bottom (v & Hv & He)%elem_of_right.
      unfold hPair, vPair in He. grid_pairs cfg.
    + unfold rightPairs. apply NoDup_bind; [| |apply NoDup_seq].
      * intros v1 v2 e Hv1%elem_of_seq Hv2%elem_of_seq.
        rewrite !list_elem_of_singleton. intros -> He.
        unfold vPair in He. grid_pairs cfg.
      * intros. apply NoDup_singleton.
Qed.

Lemma length_cells : length (cellPairs cfg) = H * (2 * W).
Proof using Type.
  unfold cellPairs. apply length_rows. intros v. apply length_pairs.
Qed.

Lemma lookup_cells u v :
  u < W -> v < H ->
  (ends <$> createConstraints cfg) !! (2 * u + v * (2 * W))
  = Some (hPair cfg u v)
  /\ (ends <$> createConstraints cfg) !! (2 * u + 1 + v * (2 * W))
     = Some (vPair cfg u v).
Proof using Type.
  intros Hu Hv. rewrite ends_parts.
  rewrite !lookup_app_l by (rewrite length_cells; nia).
  unfold cellPairs.
  rewrite !(lookup_rows _ (2 * W)) by (try lia; intros; apply length_pairs).
  by apply (lookup_pairs (fun u => hPair cfg u v) (fun u => vPair cfg u v)).
Qed.

Lemma lookup_bottom u :
  u < W ->
  (ends <$> createConstraints cfg) !! (H * (2 * W) + u) = Some (hPair cfg u H).
Proof using Type.
  intros Hu. rewrite ends_parts.
  rewrite lookup_app_r; rewrite length_cells; [|lia].
  replace (H * (2 * W) + u - H * (2 * W)) with u by lia.
  unfold bottomPairs. rewrite bind_singleton_fmap.
  rewrite lookup_app_l by (rewrite length_fmap, length_seq; lia).
  by rewrite list_lookup_fmap, lookup_seq_lt.
Qed.

Lemma lookup_right v :
  v < H ->
  (ends <$> createConstraints cfg) !! (H * (2 * W) + W + v)
  = Some (vPair cfg W v).
Proof using Type.
  intros Hv. rewrite ends_parts.
  rewrite lookup_app_r; rewrite length_cells; [|lia].
  unfold bottomPairs, rightPairs. rewrite !bind_singleton_fmap.
  rewrite lookup_app_r; rewrite length_fmap, length_seq; [|lia].
  replace (H * (2 * W) + W + v - H * (2 * W) - W) with v by lia.
  by rewrite list_lookup_fmap, lookup_seq_lt.
Qed.

Lemma length_createConstraints :
  length (createConstraints cfg) = H * (2 * W) + W + H.
Proof using Type.
  rewrite <- (length_fmap ends), ends_parts, !length_app, length_cells.
  unfold bottomPairs, rightPairs.
  rewrite !bind_singleton_fmap, !length_fmap, !length_seq. lia.
Qed.

End CellsOfConstraints.

Lemma distance_createConstraints cfg c :
  c ∈ createConstraints cfg -> distance c = restDistance cfg.
Proof.
  unfold createConstraints. rewrite !elem_of_app, !list_elem_of_bind.
  intros [(v & Hc & _)|[(u & Hc & _)|(v & Hc & _)]].
  - apply list_elem_of_bind in Hc as (u & Hc & _).
    apply elem_of_cons in Hc as [->|Hc]; [done|].
    by apply list_elem_of_singleton in Hc as ->.
  - by apply list_elem_of_singleton in Hc as ->.
  - by apply list_elem_of_singleton in Hc as ->.
Qed.

(** Every constraint of the cloth links two different particles of the
    particle array. *)
Lemma endpoints_createConstraints cfg c :
  c ∈ createConstraints cfg ->
  p1 c <> p2 c
  /\ is_Some (createParticles cfg !! p1 c)
  /\ is_Some (createParticles cfg !! p2 c).
Proof.
  intros Hc.
  assert (ends c ∈ ends <$> createConstraints cfg) as He
    by (by apply list_elem_of_fmap_2).
  apply elem_of_ends in He.
  destruct He as [(u & v & Hu & Hv & He)|(u & v & Hu & Hv & He)];
    apply pair_equal_spec in He as [-> ->];
    (split; [unfold index; lia|]);
    rewrite !lookup_createParticles by lia; done.
Qed.

End Constraints.

(** C6, as the code has it. A relaxation pass visits the constraints in
    array order, and [createCloth] fills the array in this order: for each
    grid cell [(u, v)], row by row, the horizontal constraint of the cell's
    corner immediately followed by its vertical one; then the horizontal
    constraints of the bottom row; then the vertical constraints of the last
    column. The array holds each horizontally adjacent pair and each
    vertically adjacent pair once and nothing else (no diagonal), all at the
    same rest distance: the pairs of [pairsAsSpecified], in another
    order. *)
Theorem constraints_order_and_set {num : Type} `{!Number num}
    (cfg : Config num) :
  (forall c cs ps, relaxOnce (c :: cs) ps = relaxOnce cs (satisfy c ps))
  /\ (forall u v, u < segmentsW cfg -> v < segmentsH cfg ->
        (ends <$> createConstraints cfg)
          !! (2 * u + v * (2 * segmentsW cfg))
        = Some (hPair cfg u v)
        /\ (ends <$> createConstraints cfg)
             !! (2 * u + 1 + v * (2 * segmentsW cfg))
           = Some (vPair cfg u v))
  /\ (forall u, u < segmentsW cfg ->
        (ends <$> createConstraints cfg)
          !! (segmentsH cfg * (2 * segmentsW cfg) + u)
        = Some (hPair cfg u (segmentsH cfg)))
  /\ (forall v, v < segmentsH cfg ->
        (ends <$> createConstraints cfg)
          !! (segmentsH cfg * (2 * segmentsW cfg) + segmentsW cfg + v)
        = Some (vPair cfg (segmentsW cfg) v))
  /\ length (createConstraints cfg)
     = segmentsH cfg * (2 * segmentsW cfg) + segmentsW cfg + segmentsH cfg
  /\ NoDup (ends <$> createConstraints cfg)
  /\ (forall e, e ∈ ends <$> createConstraints cfg
                <-> horizontalPair cfg e \/ verticalPair cfg e)
  /\ (forall e, e ∈ ends <$> createConstraints cfg
                <-> e ∈ pairsAsSpecified cfg)
  /\ (forall c, c ∈ createConstraints cfg -> distance c = restDistance cfg).
Proof.
  split; [done|].
  split; [apply lookup_cells|].
  split; [apply lookup_bottom|].
  split; [apply lookup_right|].
  split; [apply length_createConstraints|].
  split; [apply NoDup_ends|].
  split; [apply elem_of_ends|].
  split; [|apply distance_createConstraints].
  intros e. by rewrite elem_of_ends, elem_of_pairsAsSpecified.
Qed.

(** ** Concrete runs *)

(** [pinned_immobile] on the banner: particle 7 starts with a NaN
    coordinate, so the first step ends in a rebuild and the second runs the
    physics; the pinned particle 2 stays on its grid position. *)
Lemma pinned_immobile_witness :
  exists q,
    particles (run bannerCfg
                 [Vector3.new (ofZ 0) (dec 225 2) (ofZ 0); Vector3.zero]
                 (bannerWithX PrimFloat.nan)) !! 2 = Some q
    /\ pinned q = true
    /\ position q = position (gridParticle bannerCfg 2 0).
Proof.
  apply (pinned_immobile bannerCfg _ (bannerWithX PrimFloat.nan) 2
           (gridParticle bannerCfg 2 0)).
  - unfold pinnedAtRest, pinsKept. vm_compute.
    repeat (apply List.Forall2_cons;
            [split; [reflexivity
                    | intros H; first [discriminate H | reflexivity]] |]).
    apply List.Forall2_nil.
  - vm_compute. reflexivity.
  - reflexivity.
Defined.

(** [explosion_rebuilds] on the banner with a NaN coordinate, which no
    relaxation pass removes. *)
Lemma explosion_rebuilds_witness :
  particles (simulate bannerCfg (bannerWithX PrimFloat.nan))
  = createParticles bannerCfg
  /\ (forall u v, u <= segmentsW bannerCfg -> v <= segmentsH bannerCfg ->
        exists q,
          particles (simulate bannerCfg (bannerWithX PrimFloat.nan))
            !! index bannerCfg u v = Some q
          /\ position q = gridPosition bannerCfg u v
          /\ initialPositions (simulate bannerCfg (bannerWithX PrimFloat.nan))
               !! index bannerCfg u v = Some (position q))
  /\ windForce (simulate bannerCfg (bannerWithX PrimFloat.nan))
     = Vector3.new (ofZ 0) (ofZ 0) (ofZ 0)
  /\ isSimulationActive (simulate bannerCfg (bannerWithX PrimFloat.nan))
     = false.
Proof.
  eapply (explosion_rebuilds bannerCfg (bannerWithX PrimFloat.nan) 7).
  - vm_compute. reflexivity.
  - apply list_elem_of_here.
  - left. vm_compute. reflexivity.
Defined.

(** C5 fails as worded: for the banner particle at grid point (1, 1) under
    the full wind, the accumulated acceleration has y = -2 and z = 22.5,
    ten times the -0.2 and 2.25 of the plain sum of the three forces
    ([addForce] divides by the mass 0.1). *)
Lemma acceleration_not_sum_of_forces :
  acceleration (applyForces fullWind (gridParticle bannerCfg 1 1))
  = (Vector3.new 0 (-2) 22.5)%float
  /\ acceleration (applyForces fullWind (gridParticle bannerCfg 1 1))
     <> Vector3.addVectors
          (Vector3.addVectors gravity (windEffect fullWind))
          (flatteningForce (gridParticle bannerCfg 1 1)).
Proof.
  split; [by vm_compute|].
  intros Heq.
  apply (f_equal (fun v => PrimFloat.eqb (Vector3.y v) (-2)%float)) in Heq.
  vm_compute in Heq. discriminate Heq.
Qed.

(** C6 fails as worded: in the default 40 x 30 cloth the constraint at
    index 1 is the vertical one of grid point (0, 0) and the one at index 2
    the horizontal one of grid point (1, 0), so a vertical constraint is
    visited before a horizontal one, and the array is not the list of all
    horizontal pairs followed by all vertical pairs. *)
Lemma constraints_not_horizontal_first :
  ~ (forall i j eh ev,
       (ends <$> createConstraints (defaultConfig : Config float)) !! i
       = Some eh ->
       (ends <$> createConstraints (defaultConfig : Config float)) !! j
       = Some ev ->
       horizontalPair (defaultConfig : Config float) eh ->
       verticalPair (defaultConfig : Config float) ev ->
       i < j)
  /\ ends <$> createConstraints (defaultConfig : Config float)
     <> pairsAsSpecified (defaultConfig : Config float).
Proof.
  split.
  - intros Hall.
    assert (2 < 1) as Hlt; [|lia].
    apply (Hall 2 1 (1, 2) (0, 41)); [by vm_compute | by vm_compute | |].
    + exists 1, 0. simpl. split; [lia|]. split; [lia|done].
    + exists 0, 0. simpl. split; [lia|]. split; [lia|done].
  - intros Heq. apply (f_equal (fun l => l !! 1)) in Heq.
    vm_compute in Heq. discriminate Heq.
Qed.

(** C7 fails as worded. The two particles of [farApart] have finite
    coordinates and a distance that is not finite (it overflows to
    infinity, which is not NaN), and [satisfy] moves both of them to
    x = 2^599. Likewise for [infinitelyFar], whose distance is infinite
    because a coordinate is: the first particle is moved to x = infinity
    and the second to x = NaN. *)
Lemma satisfy_moves_at_infinite_distance :
  (PrimFloat.is_finite
     (Vector3.length
        (Vector3.subVectors (Vector3.new 0x1p600 0 0)%float
                            (Vector3.new 0 0 0)%float)) = false
   /\ position <$> satisfy (newConstraint 0 1 (restDistance defaultConfig))
                     farApart
      = [Vector3.new 0x1p599 0 0; Vector3.new 0x1p599 0 0]%float
   /\ position <$> satisfy (newConstraint 0 1 (restDistance defaultConfig))
                     farApart
      <> position <$> farApart)
  /\ (PrimFloat.is_finite
        (Vector3.length
           (Vector3.subVectors (Vector3.new PrimFloat.infinity 0 0)%float
                               (Vector3.new 0 0 0)%float)) = false
      /\ position <$> satisfy (newConstraint 0 1 (restDistance defaultConfig))
                        infinitelyFar
         = [Vector3.new PrimFloat.infinity 0 0;
            Vector3.new PrimFloat.nan 0 0]%float
      /\ position <$> satisfy (newConstraint 0 1 (restDistance defaultConfig))
                        infinitelyFar
         <> position <$> infinitelyFar).
Proof.
  split; (split; [by vm_compute|]); (split; [by vm_compute|]); intros Heq;
    apply (f_equal (fun l => match l with
                             | v :: _ => PrimFloat.eqb (Vector3.x v) 0%float
                             | [] => false
                             end)) in Heq;
    vm_compute in Heq; discriminate Heq.
Qed.

(** [verlet_commit] for the banner particle at grid point (1, 1) under the
    full wind. *)
Lemma verlet_commit_witness :
  stepParticle fullWind (gridParticle bannerCfg 1 1)
  = {| position :=
         Vector3.add
           (Vector3.addVectors (position (gridParticle bannerCfg 1 1))
              (Vector3.multiplyScalar
                 (Vector3.sub (position (gridParticle bannerCfg 1 1))
                    (oldPosition (gridParticle bannerCfg 1 1)))
                 (ofZ 1 - dec 2 2)%js))
           (Vector3.multiplyScalar
              (acceleration (applyForces fullWind (gridParticle bannerCfg 1 1)))
              ((ofZ 1 / ofZ 60) * (ofZ 1 / ofZ 60))%js);
       mass := mass (gridParticle bannerCfg 1 1);
       oldPosition := position (gridParticle bannerCfg 1 1);
       acceleration := Vector3.new (ofZ 0) (ofZ 0) (ofZ 0);
       pinned := false |}
  /\ (ofZ 1 - dec 2 2 : float)%js = dec 98 2
  /\ (ofZ 1 - dec 2 2 : R)%js = dec 98 2.
Proof.
  apply (verlet_commit fullWind (gridParticle bannerCfg 1 1)).
  - reflexivity.
  - vm_compute. reflexivity.
Defined.

(** [satisfy_spec] for two free particles two units apart and a rest
    distance of 1.35: the first one is moved by half the correction. *)
Lemma satisfy_spec_witness :
  satisfy (newConstraint 0 1 (dec 135 2)) (twoApart : list (Particle float))
    !! 0
  = Some (setPosition
            (Vector3.add (Vector3.new (ofZ 0) (ofZ 0) (ofZ 0))
               (correctionHalf (newConstraint 0 1 (dec 135 2))
                  (Vector3.new (ofZ 0) (ofZ 0) (ofZ 0))
                  (Vector3.new (ofZ 2) (ofZ 0) (ofZ 0))))
            (newParticle (Vector3.new (ofZ 0) (ofZ 0) (ofZ 0)) MASS)).
Proof.
  refine (proj1
            (proj2 (satisfy_spec (newConstraint 0 1 (dec 135 2)) twoApart
                      (newParticle (Vector3.new (ofZ 0) (ofZ 0) (ofZ 0)) MASS)
                      (newParticle (Vector3.new (ofZ 2) (ofZ 0) (ofZ 0)) MASS)
                      _ _ _) _ _)).
  - reflexivity.
  - reflexivity.
  - simpl. lia.
  - vm_compute. reflexivity.
  - vm_compute. reflexivity.
Defined.

(** [displacement_capped] for the particle at the origin in the gale. *)
Lemma displacement_capped_witness :
  position (stepParticle gale atOrigin)
  = (if (Vector3.length
           (Vector3.subVectors (verlet (applyForces gale atOrigin))
                               (position atOrigin))
         >? ofZ 5)%js
     then Vector3.addVectors (position atOrigin)
            (Vector3.multiplyScalar
               (Vector3.multiplyScalar
                  (Vector3.subVectors (verlet (applyForces gale atOrigin))
                                      (position atOrigin))
                  (ofZ 1
                   / Vector3.length
                       (Vector3.subVectors
                          (verlet (applyForces gale atOrigin))
                          (position atOrigin)))%js)
               (ofZ 5))
     else verlet (applyForces gale atOrigin)).
Proof.
  exact (proj1 (displacement_capped gale atOrigin eq_refl)).
Defined.

(** C4 fails as worded: the gale would carry the particle at the origin
    50.011111114196844 units in one step, the step commits the position
    (0, -0.000055543212615990843, 4.9999999996914957), and that
    displacement is 5.000000000000001 long, more than
    [MAX_DISPLACEMENT = 5]. *)
Lemma displacement_exceeds_cap :
  Vector3.length
    (Vector3.subVectors (verlet (applyForces gale atOrigin))
                        (position atOrigin))
  = 0x1.9016c16c80c7dp+5%float
  /\ position (stepParticle gale atOrigin)
     = (Vector3.new 0 (-0x1.d1ee240ec2b15p-15) 0x1.3fffffffab32fp+2)%float
  /\ Vector3.length
       (Vector3.subVectors (position (stepParticle gale atOrigin))
                           (position atOrigin))
     = 0x1.4000000000001p+2%float
  /\ (Vector3.length
        (Vector3.subVectors (position (stepParticle gale atOrigin))
                            (position atOrigin))
      >? ofZ 5)%js = true.
Proof. repeat split; by vm_compute. Qed.


(** [satisfy_midpoint] on doubles, for two free particles at (0, 0, 0)
    and (2, 2, 0) and a rest distance of 3. *)
Lemma satisfy_midpoint_witness :
  satisfy (newConstraint 0 1 (ofZ 3)) diagonalPair !! 0
  = Some (setPosition
            (Vector3.addVectors (Vector3.new 0 0 0)%float
               (Vector3.multiplyScalar
                  (Vector3.multiplyScalar
                     (Vector3.subVectors (Vector3.new 2 2 0)%float
                                         (Vector3.new 0 0 0)%float)
                     (ofZ 1
                      - ofZ 3
                        / Vector3.length
                            (Vector3.subVectors (Vector3.new 2 2 0)%float
                                                (Vector3.new 0 0 0)%float))%js)
                  (dec 5 1)))
            (newParticle (Vector3.new 0 0 0)%float MASS))
  /\ satisfy (newConstraint 0 1 (ofZ 3)) diagonalPair !! 1
     = Some (setPosition
               (Vector3.subVectors (Vector3.new 2 2 0)%float
                  (Vector3.multiplyScalar
                     (Vector3.multiplyScalar
                        (Vector3.subVectors (Vector3.new 2 2 0)%float
                                            (Vector3.new 0 0 0)%float)
                        (ofZ 1
                         - ofZ 3
                           / Vector3.length
                               (Vector3.subVectors
                                  (Vector3.new 2 2 0)%float
                                  (Vector3.new 0 0 0)%float))%js)
                     (dec 5 1)))
               (newParticle (Vector3.new 2 2 0)%float MASS))
  /\ (forall k, k <> 0 -> k <> 1 ->
        satisfy (newConstraint 0 1 (ofZ 3)) diagonalPair !! k
        = diagonalPair !! k).
Proof.
  apply (satisfy_midpoint float float_Number (newConstraint 0 1 (ofZ 3))
           diagonalPair
           (newParticle (Vector3.new 0 0 0)%float MASS)
           (newParticle (Vector3.new 2 2 0)%float MASS)).
  - reflexivity.
  - reflexivity.
  - simpl. lia.
  - reflexivity.
  - reflexivity.
  - vm_compute. reflexivity.
  - vm_compute. reflexivity.
Defined.

(** C10 fails as worded: for two free particles at (0, 0, 0) and (2, 2, 0)
    and a rest distance of 3, the distance is a finite number other than
    zero, the sum of the two positions is (2, 2, 0) before [satisfy] and
    (1.9999999999999998, 1.9999999999999998, 0) after it. *)
Lemma satisfy_shifts_midpoint :
  positionSum 0 1 diagonalPair = Some (Vector3.new 2 2 0)%float
  /\ positionSum 0 1 (satisfy (newConstraint 0 1 (ofZ 3)) diagonalPair)
     = Some (Vector3.new 0x1.fffffffffffffp+0 0x1.fffffffffffffp+0 0)%float
  /\ positionSum 0 1 (satisfy (newConstraint 0 1 (ofZ 3)) diagonalPair)
     <> positionSum 0 1 diagonalPair
  /\ PrimFloat.is_finite
       (Vector3.length
          (Vector3.subVectors (Vector3.new 2 2 0)%float
                              (Vector3.new 0 0 0)%float)) = true
  /\ (Vector3.length
        (Vector3.subVectors (Vector3.new 2 2 0)%float
                            (Vector3.new 0 0 0)%float) === ofZ 0)%js = false.
Proof.
  split; [by vm_compute|]. split; [by vm_compute|].
  split; [|split; by vm_compute].
  intros Heq.
  apply (f_equal (fun o => match o with
                           | Some v => PrimFloat.eqb (Vector3.x v) 2%float
                           | None => false
                           end)) in Heq.
  vm_compute in Heq. discriminate Heq.
Qed.

(** The explosion check reads the positions the relaxation passes leave: a
    coordinate of the banner set to 2000 before a step is pulled back below
    the limit by the constraints, and that step ends without a rebuild. *)
Remark stray_coordinate_recovered :
  checkSimulationExploded (physics (bannerWithX (ofZ 2000))) = false
  /\ particles (simulate bannerCfg (bannerWithX (ofZ 2000)))
     = physics (bannerWithX (ofZ 2000)).
Proof. split; by vm_compute. Qed.

(** * Properties of the rest of the component *)

(** ** The mesh geometry *)

Section Geometry.
Context {num : Type} `{!Number num}.
Implicit Types (ps : list (Particle num)) (positions : list num).

Lemma updateClothGeometryFrom_past toFloat32 ps : forall i positions,
  (length positions <= i * 3)%nat ->
  updateClothGeometryFrom toFloat32 i ps positions = positions.
Proof.
  induction ps as [|p ps IH]; intros i positions Hlen; [done|].
  cbn [updateClothGeometryFrom]. cbv zeta.
  rewrite (list_insert_ge positions (i * 3)) by lia.
  rewrite (list_insert_ge positions (i * 3 + 1)) by lia.
  rewrite (list_insert_ge positions (i * 3 + 2)) by lia.
  apply IH. lia.
Qed.

Lemma updateClothGeometryFrom_app toFloat32 ps : forall i pre rest,
  length pre = (i * 3)%nat ->
  updateClothGeometryFrom toFloat32 i ps (pre ++ rest)
  = pre ++ take (length rest) (ps ≫= vertex toFloat32)
        ++ drop (3 * length ps) rest.
Proof.
  induction ps as [|p ps IH]; intros i pre rest Hpre.
  { cbn. by rewrite take_nil. }
  cbn [updateClothGeometryFrom]. cbv zeta.
  rewrite !insert_app_r_alt by (rewrite ?length_insert; lia).
  rewrite Hpre.
  replace (i * 3 - i * 3)%nat with 0%nat by lia.
  replace (i * 3 + 1 - i * 3)%nat with 1%nat by lia.
  replace (i * 3 + 2 - i * 3)%nat with 2%nat by lia.
  replace (3 * length (p :: ps))%nat with (3 + 3 * length ps)%nat
    by (cbn [length]; lia).
  destruct rest as [|a [|b [|c rest]]].
  1-3: rewrite updateClothGeometryFrom_past
    by (rewrite length_app, ?length_insert; cbn [length]; lia); done.
  cbn [list_insert insert].
  change ((p :: ps) ≫= vertex toFloat32)
    with (vertex toFloat32 p ++ (ps ≫= vertex toFloat32)).
  change (pre ++ ?x :: ?y :: ?z :: rest) with (pre ++ [x; y; z] ++ rest).
  rewrite (assoc_L (++) pre). rewrite IH by (rewrite length_app; cbn; lia).
  rewrite <- (assoc_L (++) pre). do 2 f_equal.
Qed.

(** X11. [updateClothGeometry] overwrites the position array, three
    numbers per particle in particle order, as far as the array reaches:
    the result is the converted coordinates of the particles, cut at the
    array's length, followed by whatever the array held past the last
    particle.  The length of the array never changes. *)
Theorem geometry_written toFloat32 ps positions :
  updateClothGeometry toFloat32 ps positions
  = take (length positions) (ps ≫= vertex toFloat32)
    ++ drop (3 * length ps) positions
  /\ length (updateClothGeometry toFloat32 ps positions) = length positions.
Proof.
  assert (updateClothGeometry toFloat32 ps positions
          = take (length positions) (ps ≫= vertex toFloat32)
            ++ drop (3 * length ps) positions) as Heq
    by apply (updateClothGeometryFrom_app toFloat32 ps 0 [] positions eq_refl).
  split; [done|]. rewrite Heq.
  assert (length (ps ≫= vertex toFloat32) = (3 * length ps)%nat) as Hlen.
  { clear. induction ps as [|p ps IH]; [done|].
    change ((p :: ps) ≫= vertex toFloat32)
      with (vertex toFloat32 p ++ (ps ≫= vertex toFloat32)).
    rewrite length_app, IH. cbn [length vertex]. lia. }
  rewrite length_app, length_take, length_drop, Hlen. lia.
Qed.

End Geometry.

(** ** The grid *)

Section GridLayout.
Context {num : Type} `{!Number num}.
Implicit Types (cfg : Config num).

Lemma index_decompose cfg i :
  i < (segmentsW cfg + 1) * (segmentsH cfg + 1) ->
  i mod (segmentsW cfg + 1) <= segmentsW cfg
  /\ i / (segmentsW cfg + 1) <= segmentsH cfg
  /\ index cfg (i mod (segmentsW cfg + 1)) (i / (segmentsW cfg + 1)) = i.
Proof.
  intros Hi. unfold index.
  pose proof (Nat.mod_upper_bound i (segmentsW cfg + 1)) as Hm.
  pose proof (Nat.div_mod_eq i (segmentsW cfg + 1)) as Hd.
  assert (i / (segmentsW cfg + 1) < segmentsH cfg + 1) as Hq
    by (apply Nat.Div0.div_lt_upper_bound; lia).
  lia.
Qed.

(** X2. [index] numbers the grid points row by row without gaps or
    clashes: on the grid it stays below the number of particles, different
    grid points get different indices, and every index below that number is
    the index of a grid point. *)
Theorem index_bijective cfg :
  (forall u v, u <= segmentsW cfg -> v <= segmentsH cfg ->
     index cfg u v < (segmentsW cfg + 1) * (segmentsH cfg + 1))
  /\ (forall u v u' v', u <= segmentsW cfg -> u' <= segmentsW cfg ->
        index cfg u v = index cfg u' v' -> u = u' /\ v = v')
  /\ (forall i, i < (segmentsW cfg + 1) * (segmentsH cfg + 1) ->
        exists u v, u <= segmentsW cfg /\ v <= segmentsH cfg
                    /\ index cfg u v = i).
Proof.
  split; [|split].
  - intros u v Hu Hv. unfold index. nia.
  - intros u v u' v'. apply index_inj.
  - intros i Hi. destruct (index_decompose cfg i Hi) as (Hu & Hv & Heq).
    by exists (i mod (segmentsW cfg + 1)), (i / (segmentsW cfg + 1)).
Qed.

Lemma length_createParticles cfg :
  length (createParticles cfg) = (segmentsW cfg + 1) * (segmentsH cfg + 1).
Proof.
  unfold createParticles.
  rewrite (length_rows _ (S (segmentsW cfg))).
  - lia.
  - intros v. by rewrite bind_singleton_fmap, length_fmap, length_seq.
Qed.

Lemma createInitialPositions_positions cfg :
  createInitialPositions cfg = position <$> createParticles cfg.
Proof.
  unfold createInitialPositions, createParticles.
  rewrite fmap_bind. apply list_bind_ext; [|done]. intros v.
  rewrite fmap_bind. apply list_bind_ext; [|done]. intros u. simpl.
  by rewrite position_gridParticle.
Qed.

(** X1. [createCloth] builds one particle per grid point,
    [(segmentsW + 1) * (segmentsH + 1)] in all, each at rest on the initial
    position stored for its index (old position equal to the position, no
    acceleration, mass [MASS]); the pinned particles are exactly those of
    the first row, the indices [0 .. segmentsW]. *)
Theorem createCloth_layout cfg :
  length (createParticles cfg) = (segmentsW cfg + 1) * (segmentsH cfg + 1)
  /\ createInitialPositions cfg = position <$> createParticles cfg
  /\ forall i p, createParticles cfg !! i = Some p ->
       (pinned p = true <-> i <= segmentsW cfg)
       /\ oldPosition p = position p
       /\ acceleration p = Vector3.zero
       /\ mass p = MASS.
Proof.
  split; [apply length_createParticles|]. split.
  - apply createInitialPositions_positions.
  - intros i p Hi.
    assert (i < (segmentsW cfg + 1) * (segmentsH cfg + 1)) as Hlt
      by (rewrite <- length_createParticles; by eapply lookup_lt_Some).
    destruct (index_decompose cfg i Hlt) as (Hu & Hv & Heq).
    rewrite <- Heq, lookup_createParticles in Hi by done.
    injection Hi as <-. unfold gridParticle.
    destruct (i / (segmentsW cfg + 1)) as [|v] eqn:Hq; simpl.
    + split; [|done]. split; [|done]. intros _.
      unfold index in Heq. lia.
    + split; [|done]. split; [done|]. intros Hle.
      assert (i / (segmentsW cfg + 1) = 0) as H0
        by (apply Nat.div_small; lia).
      lia.
Qed.

End GridLayout.

(** ** One step after another *)

Section Steps.
Context {num : Type} `{!Number num}.
Implicit Types (cfg : Config num) (st : Fabric num) (p q r : Particle num).
Implicit Types (ps : list (Particle num)) (cs : list (Constraint num)).

Lemma setPosition_position p : setPosition (position p) p = p.
Proof. by destruct p. Qed.

Lemma moved_refl p : moved p p.
Proof. split; [by rewrite setPosition_position | done]. Qed.

Lemma moved_trans p q r : moved p q -> moved q r -> moved p r.
Proof.
  intros [Hq Hpq] [Hr Hqr]. split.
  - rewrite Hr, Hq. done.
  - intros Hp. rewrite Hqr; [by apply Hpq|].
    by rewrite (Hpq Hp).
Qed.

Lemma Forall2_moved_refl ps : Forall2 moved ps ps.
Proof. apply Forall_Forall2_diag, Forall_forall. intros. apply moved_refl. Qed.

Lemma Forall2_moved_trans ps1 ps2 ps3 :
  Forall2 moved ps1 ps2 -> Forall2 moved ps2 ps3 -> Forall2 moved ps1 ps3.
Proof.
  intros H12 H23. eapply Forall2_trans; [|exact H12|exact H23].
  apply moved_trans.
Qed.

Lemma moveUnlessPinned_moved i f ps :
  Forall2 moved ps (moveUnlessPinned i f ps).
Proof.
  unfold moveUnlessPinned.
  destruct (ps !! i) as [q|] eqn:Hi; [|apply Forall2_moved_refl].
  destruct (pinned q) eqn:Hq; [apply Forall2_moved_refl|].
  rewrite <- (list_insert_id ps i q Hi) at 1.
  apply Forall2_insert; [apply Forall2_moved_refl|].
  split; [done|]. rewrite Hq. discriminate.
Qed.

Lemma relax_moved cs ps : Forall2 moved ps (relax cs ps).
Proof.
  unfold relax. induction numIterations as [|n IH]; simpl;
    [apply Forall2_moved_refl|].
  eapply Forall2_moved_trans; [apply IH|].
  generalize (Nat.iter n (relaxOnce cs) ps). clear IH ps.
  unfold relaxOnce. induction cs as [|c cs IH]; intros ps; simpl;
    [apply Forall2_moved_refl|].
  eapply Forall2_moved_trans; [|apply IH].
  unfold satisfy.
  destruct (ps !! p1 c); [|apply Forall2_moved_refl].
  destruct (ps !! p2 c); [|apply Forall2_moved_refl].
  destruct (_ || _); [apply Forall2_moved_refl|].
  eapply Forall2_moved_trans; apply moveUnlessPinned_moved.
Qed.

Lemma stepParticle_stepped wind p : stepped p (stepParticle wind p).
Proof.
  unfold stepped, stepParticle.
  destruct (pinned p) eqn:Hp; [by rewrite Hp|].
  destruct (applyForces_fields wind p) as (Hpos & Hm & _ & Hpin).
  unfold integrate. simpl. by rewrite Hm, Hpin, Hpos, Hp.
Qed.

Lemma stepped_moved p q r : stepped p q -> moved q r -> stepped p r.
Proof.
  intros (Hm & Hpin & Hrest) [Hr Hqr]. unfold stepped.
  rewrite Hr. simpl. split; [done|]. split; [done|].
  destruct (pinned p) eqn:Hp.
  - subst q. rewrite <- Hr. by apply Hqr.
  - done.
Qed.

Lemma physics_stepped st : Forall2 stepped (particles st) (physics st).
Proof.
  unfold physics.
  eapply Forall2_trans; [apply stepped_moved| |apply relax_moved].
  apply Forall2_fmap_r, Forall_Forall2_diag, Forall_forall.
  intros p _. apply stepParticle_stepped.
Qed.

(** X5. A step that ends without explosion keeps the number, the masses
    and the pins of the particles; it leaves a pinned particle exactly as
    it was, and for every other particle the old position afterwards is the
    position before the step and the acceleration is zero again. So the
    velocity the stability test reads is the displacement of the last
    step, relaxation included. *)
Theorem simulate_history cfg st :
  checkSimulationExploded (physics st) = false ->
  Forall2 stepped (particles st) (particles (simulate cfg st))
  /\ length (particles (simulate cfg st)) = length (particles st).
Proof.
  intros Hok. unfold simulate. simpl. rewrite Hok. simpl.
  split; [apply physics_stepped|].
  symmetry. eapply Forall2_length, physics_stepped.
Qed.

Lemma createParticles_rest cfg :
  Forall (fun p => acceleration p = Vector3.zero /\ mass p = MASS)
         (createParticles cfg).
Proof.
  apply Forall_forall. intros p Hp. unfold createParticles in Hp.
  apply list_elem_of_bind in Hp as (v & Hp & _).
  apply list_elem_of_bind in Hp as (u & Hp & _).
  apply list_elem_of_singleton in Hp as ->.
  unfold gridParticle. by destruct (v =? 0).
Qed.

Lemma physics_rest st :
  Forall (fun p => acceleration p = Vector3.zero /\ mass p = MASS)
         (particles st) ->
  Forall (fun p => acceleration p = Vector3.zero /\ mass p = MASS)
         (physics st).
Proof.
  intros Hst. apply Forall_lookup. intros i q Hi.
  destruct (Forall2_lookup_r _ _ _ _ _ (physics_stepped st) Hi)
    as (p & Hp & Hm & _ & Hrest).
  destruct (Forall_lookup_1 _ _ _ _ Hst Hp) as [Hacc Hmass].
  split; [|congruence].
  destruct (pinned p); [by subst q | by destruct Hrest].
Qed.

Lemma simulate_wellFormed cfg st :
  wellFormed cfg st -> wellFormed cfg (simulate cfg st).
Proof.
  intros (Hpins & Hrest & Hcs & Hinit).
  split; [by apply simulate_pinnedAtRest|].
  unfold simulate. simpl.
  destruct (checkSimulationExploded (physics st)); simpl.
  - split; [apply createParticles_rest | done].
  - split; [by apply physics_rest | done].
Qed.

Lemma animate_wellFormed cfg frame st :
  wellFormed cfg st -> wellFormed cfg (animate cfg frame st).
Proof.
  intros Hst. unfold animate. destruct (negb _); [done|].
  by apply (simulate_wellFormed cfg st).
Qed.

Lemma handleScroll_wellFormed cfg cur frame st :
  wellFormed cfg st -> wellFormed cfg (handleScroll cfg cur frame st).
Proof.
  unfold handleScroll. intros Hst. cbv zeta.
  repeat match goal with
         | |- context [if ?b then _ else _] => destruct b
         end; try done.
  match goal with
  | |- context [animate cfg frame ?s] =>
      assert (wellFormed cfg (animate cfg frame s)) as Hwf
        by (by apply animate_wellFormed)
  end.
  exact Hwf.
Qed.

Lemma events_wellFormed cfg (events : list (Event num)) :
  wellFormed cfg (foldl (fun st e => handle cfg e st) (init cfg) events).
Proof.
  assert (wellFormed cfg (init cfg)) as Hinit.
  { split; [apply init_pinnedAtRest|].
    split; [apply createParticles_rest | done]. }
  revert Hinit. generalize (init cfg).
  induction events as [|e events IH]; intros st Hst; simpl; [done|].
  apply IH. destruct e; simpl.
  - by apply handleScroll_wellFormed.
  - by apply animate_wellFormed.
  - done.
  - unfold stabilityPoll. destruct (isClothStable st); [|done].
    cbv zeta. by destruct (animationFrameId _) as [[|?]|].
  - done.
Qed.

(** X3. Whatever happens to the component, in whatever order, it holds a
    well-formed cloth: the particle array keeps the size and the pins of
    the grid, pinned particles stay on their grid positions, every particle
    has mass [MASS] and no acceleration pending, and the constraints and
    the stored initial positions are those [createCloth] built. *)
Theorem wellFormed_invariant cfg (events : list (Event num)) :
  wellFormed cfg (foldl (fun st e => handle cfg e st) (init cfg) events)
  /\ length (particles
               (foldl (fun st e => handle cfg e st) (init cfg) events))
     = (segmentsW cfg + 1) * (segmentsH cfg + 1).
Proof.
  split; [apply events_wellFormed|].
  destruct (events_wellFormed cfg events) as (Hpins & _).
  rewrite <- length_createParticles. symmetry.
  eapply Forall2_length, Hpins.
Qed.

(** X14. At any time every constraint of the component links two
    different particles, both present in the particle array: [satisfy]
    always finds its two endpoints. *)
Theorem constraints_linked cfg (events : list (Event num)) c :
  c ∈ constraints (foldl (fun st e => handle cfg e st) (init cfg) events) ->
  p1 c <> p2 c
  /\ is_Some (particles
                (foldl (fun st e => handle cfg e st) (init cfg) events)
              !! p1 c)
  /\ is_Some (particles
                (foldl (fun st e => handle cfg e st) (init cfg) events)
              !! p2 c).
Proof.
  destruct (events_wellFormed cfg events) as (Hpins & _ & -> & _).
  intros Hc.
  destruct (endpoints_createConstraints cfg c Hc) as (Hne & [a Ha] & [b Hb]).
  split; [done|].
  destruct (Forall2_lookup_l _ _ _ _ _ Hpins Ha) as (a' & -> & _).
  destruct (Forall2_lookup_l _ _ _ _ _ Hpins Hb) as (b' & -> & _).
  done.
Qed.

Lemma simulate_active cfg st :
  isSimulationActive (simulate cfg st)
  = if checkSimulationExploded (physics st) then false
    else isSimulationActive st.
Proof. unfold simulate. simpl. by destruct (checkSimulationExploded _). Qed.

Lemma simulate_particles_cases cfg st :
  particles (simulate cfg st)
  = if checkSimulationExploded (physics st) then createParticles cfg
    else physics st.
Proof. unfold simulate. simpl. by destruct (checkSimulationExploded _). Qed.

(** The scroll handler, when it steps nothing. *)
Lemma handleScroll_quiet cfg cur frame st :
  (nabs (clampScroll (cur - previousScrollY st)%js) >? ofZ 1)%js = false
  \/ isSimulationActive st = true ->
  particles (handleScroll cfg cur frame st) = particles st
  /\ windForce (handleScroll cfg cur frame st) = windForce st
  /\ isSimulationActive (handleScroll cfg cur frame st)
     = isSimulationActive st
  /\ animationFrameId (handleScroll cfg cur frame st) = animationFrameId st.
Proof.
  unfold handleScroll. cbv zeta.
  cbn [scrollVelocity previousScrollY setScroll].
  fold (clampScroll (cur - previousScrollY st)%js).
  intros [Hsmall|Hactive].
  - by rewrite Hsmall.
  - destruct (_ >? _)%js; [|done].
    cbn [isSimulationActive startTween setScroll]. by rewrite Hactive.
Qed.

(** The stability poll writes the mode, and the pending frame, only. *)
Lemma stabilityPoll_fields st :
  particles (stabilityPoll st) = particles st
  /\ isSimulationActive (stabilityPoll st)
     = (if isClothStable st then false else isSimulationActive st).
Proof.
  unfold stabilityPoll. destruct (isClothStable st); [|done].
  cbv zeta. by destruct (animationFrameId _) as [[|?]|].
Qed.

(** X8. The two modes of the component. An idle component becomes active
    only through a scroll event whose clamped delta exceeds 1 in magnitude;
    an active one becomes idle only through a stability poll that finds the
    cloth stable, or through an animation frame whose step explodes; and
    while idle, nothing but such a scroll event changes the particles. *)
Theorem mode_transitions cfg (e : Event num) st :
  (isSimulationActive st = false ->
   isSimulationActive (handle cfg e st) = true ->
   exists y f, e = scrolled y f
     /\ (nabs (clampScroll (y - previousScrollY st)%js) >? ofZ 1)%js = true)
  /\ (isSimulationActive st = true ->
      isSimulationActive (handle cfg e st) = false ->
      (e = stabilityDue /\ isClothStable st = true)
      \/ ((exists f, e = frameDue f)
          /\ checkSimulationExploded (physics st) = true))
  /\ (isSimulationActive st = false ->
      (forall y f, e = scrolled y f ->
         (nabs (clampScroll (y - previousScrollY st)%js) >? ofZ 1)%js
         = false) ->
      particles (handle cfg e st) = particles st).
Proof.
  split; [|split].
  - intros Hidle Hact. destruct e as [y f|f| | |w]; cbn [handle] in Hact.
    + exists y, f. split; [done|].
      destruct (nabs (clampScroll (y - previousScrollY st)%js) >? ofZ 1)%js
        eqn:Hbig; [done|].
      destruct (handleScroll_quiet cfg y f st (or_introl Hbig))
        as (_ & _ & Heq & _).
      congruence.
    + unfold animate in Hact. rewrite Hidle in Hact. simpl in Hact.
      congruence.
    + simpl in Hact. congruence.
    + destruct (stabilityPoll_fields st) as [_ Heq]. rewrite Heq in Hact.
      destruct (isClothStable st); congruence.
    + simpl in Hact. congruence.
  - intros Hact Hidle. destruct e as [y f|f| | |w]; cbn [handle] in Hidle.
    + destruct (handleScroll_quiet cfg y f st (or_intror Hact))
        as (_ & _ & Heq & _).
      congruence.
    + right. split; [by exists f|].
      unfold animate in Hidle. rewrite Hact in Hidle.
      cbn [negb isSimulationActive setAnimationFrameId] in Hidle.
      rewrite simulate_active in Hidle.
      destruct (checkSimulationExploded (physics st)); [done|congruence].
    + simpl in Hidle. congruence.
    + left. split; [done|].
      destruct (stabilityPoll_fields st) as [_ Heq]. rewrite Heq in Hidle.
      destruct (isClothStable st); [done|congruence].
    + simpl in Hidle. congruence.
  - intros Hidle Hsmall. destruct e as [y f|f| | |w]; cbn [handle].
    + by destruct (handleScroll_quiet cfg y f st
                     (or_introl (Hsmall y f eq_refl))) as (-> & _).
    + unfold animate. by rewrite Hidle.
    + done.
    + apply stabilityPoll_fields.
    + done.
Qed.

(** X9. The scroll handler always records the new scroll position and
    (re)arms the 500 ms timer that runs [resetFabric]. When the clamped
    delta does not exceed 1 in magnitude, or the simulation is already
    running, it steps no physics itself: particles, wind force, mode and
    pending frame are as before. *)
Theorem handleScroll_bookkeeping cfg cur frame st :
  previousScrollY (handleScroll cfg cur frame st) = cur
  /\ resetTimeout (handleScroll cfg cur frame st) = Some (afterScroll 500)
  /\ ((nabs (clampScroll (cur - previousScrollY st)%js) >? ofZ 1)%js = false
      \/ isSimulationActive st = true ->
      particles (handleScroll cfg cur frame st) = particles st
      /\ windForce (handleScroll cfg cur frame st) = windForce st
      /\ isSimulationActive (handleScroll cfg cur frame st)
         = isSimulationActive st
      /\ animationFrameId (handleScroll cfg cur frame st)
         = animationFrameId st).
Proof.
  split; [done|]. split; [done|]. apply handleScroll_quiet.
Qed.

End Steps.

(** ** The rebuilt cloth *)

Section Exact.
Local Open Scope R_scope.
Implicit Types (cfg : Config R) (st : Fabric R) (p q : Particle R).
Implicit Types (c : Constraint R) (ps : list (Particle R)).

Lemma length_zero_displacement (v : Vector3 R) :
  Vector3.length (Vector3.subVectors v v) = 0.
Proof.
  unfold Vector3.length, Vector3.subVectors. simpl.
  replace (_ + _ + _) with 0 by ring. apply sqrt_0.
Qed.

Lemma stillMoving_at_rest p :
  oldPosition p = position p -> stillMoving p = false.
Proof.
  intros Hold. unfold stillMoving, velocity, zVelocity. rewrite Hold.
  rewrite length_zero_displacement. simpl.
  replace (Vector3.z (position p) - Vector3.z (position p)) with 0 by ring.
  rewrite Rabs_R0. decimals.
  destruct (Rgt_dec 0 (1 / 100)) as [Hv|_]; [lra|].
  destruct (Rgt_dec 0 (5 / 100)) as [Hz|_]; [lra|done].
Qed.

Lemma createParticles_stable cfg :
  isClothStableFrom (createParticles cfg) = true.
Proof.
  apply isClothStableFrom_forall. intros p Hp _.
  apply stillMoving_at_rest.
  unfold createParticles in Hp.
  apply list_elem_of_bind in Hp as (v & Hp & _).
  apply list_elem_of_bind in Hp as (u & Hp & _).
  apply list_elem_of_singleton in Hp as ->.
  unfold gridParticle. by destruct (v =? 0)%nat.
Qed.

(** X10. A rebuild does not depend on the cloth it replaces and doing it
    twice changes nothing more: [fullReset] is idempotent and its particles,
    constraints and initial positions are those of the grid, its wind force
    zero and its mode idle whatever the state before (in every number
    model). Over exact arithmetic the cloth it leaves, like the cloth the
    component starts with, passes the stability test. *)
Theorem rebuilt_cloth :
  (forall (num : Type) (N : Number num) (cfg : Config num)
          (st st' : Fabric num),
      fullReset cfg (fullReset cfg st) = fullReset cfg st
      /\ particles (fullReset cfg st) = particles (fullReset cfg st')
      /\ constraints (fullReset cfg st) = constraints (fullReset cfg st')
      /\ initialPositions (fullReset cfg st)
         = position <$> particles (fullReset cfg st)
      /\ windForce (fullReset cfg st) = Vector3.new (ofZ 0) (ofZ 0) (ofZ 0)
      /\ isSimulationActive (fullReset cfg st) = false)
  /\ (forall cfg st,
        isClothStable (fullReset cfg st) = true
        /\ isClothStable (init cfg) = true).
Proof.
  split.
  - intros num N cfg st st'. repeat split; try done.
    apply createInitialPositions_positions.
  - intros cfg st. split; apply createParticles_stable.
Qed.

(** The displacement between the endpoints after both have taken the half
    correction computed with factor [k]. *)
End Exact.

(** ** On doubles *)

Section Doubles.
Local Open Scope js_scope.

Lemma is_nan_abs (c : float) :
  PrimFloat.is_nan c = false -> PrimFloat.is_nan (PrimFloat.abs c) = false.
Proof.
  unfold PrimFloat.is_nan.
  rewrite !FloatAxioms.eqb_spec, FloatAxioms.abs_spec.
  destruct (FloatOps.Prim2SF c) as [s|s| |s m e]; try done.
  intros _. unfold SpecFloat.SFeqb. simpl.
  by rewrite Z.compare_refl, Pos.compare_cont_refl.
Qed.

Lemma in_range (c : float) :
  outOfRange c = false ->
  PrimFloat.is_finite c = true /\ (nabs c <=? ofZ 1000) = true.
Proof.
  intros Hc. split.
  - destruct (PrimFloat.is_finite c) eqn:Hfin; [done|].
    apply nonfinite_outOfRange in Hfin. congruence.
  - unfold outOfRange in Hc. apply orb_false_iff in Hc as [Hnan Hgt].
    rewrite ngt_nle in Hgt; [by apply negb_false_iff in Hgt| |by vm_compute].
    by apply is_nan_abs.
Qed.

(** X4. On doubles, for a grid whose own coordinates pass the explosion
    check: whatever state [simulate] is called in, it leaves every
    coordinate of every particle finite and of magnitude at most 1000. The
    default 40 x 30 cloth is such a grid. *)
Theorem step_stays_in_range (cfg : Config float) (st : Fabric float) :
  checkSimulationExploded (createParticles cfg) = false ->
  Forall (fun p =>
            Forall (fun c => PrimFloat.is_finite c = true
                             /\ (nabs c <=? ofZ 1000) = true)
                   (Vector3.coords (position p)))
         (particles (simulate cfg st)).
Proof.
  intros Hgrid.
  assert (checkSimulationExploded (particles (simulate cfg st)) = false)
    as Hok.
  { rewrite simulate_particles_cases.
    by destruct (checkSimulationExploded (physics st)) eqn:Hex. }
  apply Forall_forall. intros p Hp.
  apply Forall_forall. intros c Hc.
  apply in_range. destruct (outOfRange c) eqn:Hout; [|done].
  rewrite <- Hok. symmetry.
  apply list_elem_of_lookup in Hp as [i Hi].
  eapply checkSimulationExploded_intro; [exact Hi|].
  by eapply explodedParticle_coord.
Qed.

(** [step_stays_in_range] for the default cloth, stepped from its rest
    pose under the full wind. *)
Lemma step_stays_in_range_witness :
  Forall (fun p =>
            Forall (fun c => PrimFloat.is_finite c = true
                             /\ (nabs c <=? ofZ 1000) = true)
                   (Vector3.coords (position p)))
         (particles (simulate defaultConfig
                       (setWindForce fullWind (init defaultConfig)))).
Proof.
  apply (step_stays_in_range defaultConfig
           (setWindForce fullWind (init defaultConfig))).
  vm_compute. reflexivity.
Defined.

End Doubles.

(** ** Concrete runs of the rest *)

(** [simulate_history] for the banner stepped from its rest pose under the
    full wind. *)
Lemma simulate_history_witness :
  Forall2 stepped
    (particles (setWindForce fullWind (init bannerCfg)))
    (particles (simulate bannerCfg (setWindForce fullWind (init bannerCfg))))
  /\ length (particles
               (simulate bannerCfg (setWindForce fullWind (init bannerCfg))))
     = length (particles (setWindForce fullWind (init bannerCfg))).
Proof.
  apply (simulate_history bannerCfg (setWindForce fullWind (init bannerCfg))).
  vm_compute. reflexivity.
Defined.

(** [constraints_linked] for the first constraint of the banner, after a
    scroll and a frame. *)
Lemma constraints_linked_witness :
  0 <> 1
  /\ is_Some (particles
                (foldl (fun st e => handle bannerCfg e st) (init bannerCfg)
                   [scrolled (ofZ 20) 1; frameDue 2])
              !! 0)
  /\ is_Some (particles
                (foldl (fun st e => handle bannerCfg e st) (init bannerCfg)
                   [scrolled (ofZ 20) 1; frameDue 2])
              !! 1).
Proof.
  apply (constraints_linked bannerCfg [scrolled (ofZ 20) 1; frameDue 2]
           (newConstraint 0 1 (restDistance bannerCfg))).
  vm_compute. apply list_elem_of_here.
Defined.

